(** * Route planner of the SLC 3D indoor navigation map

    A shallow embedding of [src/utils/pathfinding.ts]: the waypoint
    graph [navigationNodes], [calculateDistance], [getDirection],
    [findPath] (Dijkstra's search, the predecessor walk and the
    synthesis of the steps) and [getPathNodes], followed by the
    properties of the planner.

    Conventions of the embedding.
    - A JavaScript [number] that carries a coordinate or a distance is a
      binary64 value ([float], with the IEEE operations of the kernel);
      [Infinity] is [infinity], [ToNumber(undefined)] is [nan].
    - A floor index is an integer ([Z]), as in the data; its decimal
      numeral is what the template strings print.
    - The objects [distances] and [previous] are finite maps from
      strings; a read of a key that was never written is [undefined].
    - A [Set] of strings is the list of its elements in insertion order.
    - A loop that may not terminate takes fuel; running out of fuel is
      the outcome [OutOfFuel], a thrown [TypeError] the outcome
      [Thrown]. *)

From Stdlib Require Import Floats ZArith NArith Ascii String List Bool Lia.
From stdpp Require Import base option list strings gmap pretty.

Local Open Scope string_scope.
Local Open Scope list_scope.
Local Open Scope nat_scope.

#[local] Set Warnings "-clear-no-such-hyp".

(** ** JavaScript values used by the module *)

Module JS.

(** [Math.PI]. *)
Definition Math_PI : float := 0x1.921fb54442d18p+1%float.

(** [Math.round]: the nearest integer, a tie going towards +infinity;
    an integral argument, an infinity and NaN are returned unchanged. *)
Definition Math_round (x : float) : float :=
  let big := 4503599627370496%float in
  if (abs x <? big)%float then
    if (x <? 0)%float then
      let y := (- x)%float in
      let r := ((y + big) - big)%float in
      let fl := if (y <? r)%float then (r - 1)%float else r in
      (- (if (0.5 <? y - fl)%float then fl + 1 else fl))%float
    else
      let r := ((x + big) - big)%float in
      if (r =? x)%float then x
      else
        let fl := if (x <? r)%float then (r - 1)%float else r in
        if (0.5 <=? x - fl)%float then (fl + 1)%float else fl
  else x.

(** The value that ECMA-262 leaves to the implementation in
    [Math.atan2]: the arctangent of a quotient of two finite non-zero
    numbers.  The approximant below halves the angle twice and sums the
    alternating series.  It is one admissible implementation, not that
    of a given engine: the two may differ in the last digit, and so in
    the label of a displacement whose angle lies on the border of two
    sectors.  The properties of [getDirection] that do not rest on an
    evaluated input are therefore stated over [getDirection_with], for
    every implementation of [Math.atan2]. *)
Definition atan_unit (t : float) : float :=
  let half (a : float) : float := (a / (1 + sqrt (1 + a * a)))%float in
  let a := half (half t) in
  let u := (a * a)%float in
  let odd : list float :=
    [1; 3; 5; 7; 9; 11; 13; 15; 17; 19; 21; 23; 25; 27; 29; 31; 33]%float in
  (4 * (a * fold_right (fun d acc => 1 / d - u * acc) 0 odd))%float.

Definition atan_nonneg (q : float) : float :=
  if (q <=? 1)%float then atan_unit q
  else (Math_PI / 2 - atan_unit (1 / q))%float.

Definition is_neg_zero (x : float) : bool :=
  ((x =? 0) && (1 / x <? 0))%float.

(** [Math.atan2(y, x)], case by case as ECMA-262 lists them. *)
Definition Math_atan2 (y x : float) : float :=
  let pi := Math_PI in
  if is_nan y || is_nan x then nan
  else if (y =? infinity)%float then
    if (x =? infinity)%float then (pi / 4)%float
    else if (x =? neg_infinity)%float then (3 * pi / 4)%float
    else (pi / 2)%float
  else if (y =? neg_infinity)%float then
    if (x =? infinity)%float then (- (pi / 4))%float
    else if (x =? neg_infinity)%float then (- (3 * pi / 4))%float
    else (- (pi / 2))%float
  else if (y =? 0)%float then
    if is_neg_zero y then
      if (0 <? x)%float || ((x =? 0)%float && negb (is_neg_zero x))
      then (-0)%float else (- pi)%float
    else
      if (0 <? x)%float || ((x =? 0)%float && negb (is_neg_zero x))
      then 0%float else pi
  else if (0 <? y)%float then
    if (x =? infinity)%float then 0%float
    else if (x =? neg_infinity)%float then pi
    else if (x =? 0)%float then (pi / 2)%float
    else if (0 <? x)%float then atan_nonneg (y / x)
    else (pi - atan_nonneg (y / - x))%float
  else
    if (x =? infinity)%float then (-0)%float
    else if (x =? neg_infinity)%float then (- pi)%float
    else if (x =? 0)%float then (- (pi / 2))%float
    else if (0 <? x)%float then (- atan_nonneg (- y / x))%float
    else (- (pi - atan_nonneg (y / x)))%float.

(** A value held by a variable that is a string, [null] or
    [undefined]. *)
Inductive value : Type :=
  | Str (s : string)
  | Null
  | Undefined.

(** [ToPropertyKey]: the string under which a value indexes an object. *)
Definition to_key (v : value) : string :=
  match v with
  | Str s => s
  | Null => "null"
  | Undefined => "undefined"
  end.

(** [!s] for a string: only the empty string is falsy. *)
Definition falsy (s : string) : bool :=
  match s with
  | EmptyString => true
  | String _ _ => false
  end.

(** *** Sets of strings, in insertion order *)

Definition Set_has (s : list string) (x : string) : bool :=
  existsb (String.eqb x) s.

Definition Set_add (s : list string) (x : string) : list string :=
  if Set_has s x then s else s ++ [x].

Definition Set_delete (s : list string) (x : string) : list string :=
  List.filter (fun y => negb (String.eqb x y)) s.

Definition Set_of (l : list string) : list string :=
  fold_left Set_add l [].

(** *** The order of [Object.keys]

    The own keys that are array indices come first, in ascending
    numeric order; the other string keys follow in creation order. *)

Definition digit_value (c : ascii) : option N :=
  let n := N_of_ascii c in
  if ((48 <=? n) && (n <=? 57))%N then Some (n - 48)%N else None.

Fixpoint digits_value (acc : N) (s : string) : option N :=
  match s with
  | EmptyString => Some acc
  | String c rest =>
      match digit_value c with
      | Some d => digits_value (10 * acc + d)%N rest
      | None => None
      end
  end.

(** The canonical numeric strings below 2^32 - 1. *)
Definition array_index (s : string) : option N :=
  match s with
  | EmptyString => None
  | String c rest =>
      if Ascii.eqb c "0"%char && negb (falsy rest) then None
      else
        match digits_value 0 s with
        | Some n => if (n <=? 4294967294)%N then Some n else None
        | None => None
        end
  end.

Fixpoint insert_index (p : N * string) (l : list (N * string))
  : list (N * string) :=
  match l with
  | [] => [p]
  | q :: l' => if (fst p <? fst q)%N then p :: l else q :: insert_index p l'
  end.

Definition own_keys_order (ks : list string) : list string :=
  let indexed :=
    fold_left
      (fun acc k =>
         match array_index k with
         | Some n => insert_index (n, k) acc
         | None => acc
         end) ks [] in
  map snd indexed
    ++ List.filter (fun k => match array_index k with
                        | Some _ => false
                        | None => true
                        end) ks.

End JS.

(** ** Data model *)

(** [PathNode['type']]. *)
Inductive NodeType : Type :=
  | room
  | hallway
  | stairs
  | elevator
  | entrance.

(** [PathStep['floorChange']]; [undefined] is [None]. *)
Inductive FloorChange : Type :=
  | up
  | down.

Definition Position : Type := (float * float * float)%type.

Module PathNode.
Record t : Type := mk {
  id : string;
  position : Position;
  floor : Z;
  type : NodeType;
  connections : list string
}.
End PathNode.

Module PathStep.
Record t : Type := mk {
  from : string;
  to : string;
  direction : string;
  distance : float;
  instruction : string;
  floor : Z;
  floorChange : option FloorChange
}.
End PathStep.

(** A [Record<string, PathNode>]: its own properties in creation
    order, under distinct keys.  Only own properties are read: no id of
    the data, and no id the map passes, names a member of
    [Object.prototype]. *)
Definition Graph : Type := list (string * PathNode.t).

Definition lookup_node (g : Graph) (k : string) : option PathNode.t :=
  snd <$> find (fun p => String.eqb (fst p) k) g.

Definition Object_keys (g : Graph) : list string :=
  JS.own_keys_order (map fst g).

(** ** The navigation graph of the college *)

Definition node (i : string) (p : Position) (f : Z) (t : NodeType)
  (c : list string) : string * PathNode.t :=
  (i, PathNode.mk i p f t c).

Definition navigationNodes : Graph := [
  node "ENTRANCE" (0, 1, -4)%float 1 entrance ["HALL1_1"; "HALL1_2"];
  node "HALL1_1" (0, 1, -2)%float 1 hallway
       ["ENTRANCE"; "HALL1_2"; "B101"; "STAIRS1"];
  node "HALL1_2" (2, 1, 0)%float 1 hallway
       ["HALL1_1"; "11840"; "CAFE"; "ELEVATOR1"];
  node "STAIRS1" (-1, 1, -1)%float 1 stairs ["HALL1_1"; "STAIRS2"];
  node "ELEVATOR1" (3, 1, -1)%float 1 elevator ["HALL1_2"; "ELEVATOR2"];
  node "B101" (0, 1, -2)%float 1 room ["HALL1_1"];
  node "11840" (-2, 1, 2)%float 1 room ["HALL1_2"];
  node "CAFE" (3, 1, 0)%float 1 room ["HALL1_2"];
  node "STAIRS2" (-1, 2, -1)%float 2 stairs ["STAIRS1"; "HALL2_1"];
  node "ELEVATOR2" (3, 2, -1)%float 2 elevator ["ELEVATOR1"; "HALL2_2"];
  node "HALL2_1" (0, 2, 0)%float 2 hallway
       ["STAIRS2"; "HALL2_2"; "A233"; "C205"];
  node "HALL2_2" (2, 2, 1)%float 2 hallway ["HALL2_1"; "ELEVATOR2"; "LIB"];
  node "A233" (2, 2, 0)%float 2 room ["HALL2_1"];
  node "C205" (-1, 2, 1)%float 2 room ["HALL2_1"];
  node "LIB" (0, 2, 3)%float 2 room ["HALL2_2"]
].

(** ** Distance and direction *)

(** [d ** 2] is the product [d * d]. *)
Definition calculateDistance (pos1 pos2 : Position) : float :=
  let '(x1, y1, z1) := pos1 in
  let '(x2, y2, z2) := pos2 in
  sqrt ((x2 - x1) * (x2 - x1) + (y2 - y1) * (y2 - y1)
        + (z2 - z1) * (z2 - z1))%float.

(** The chain of interval tests of [getDirection], on the angle in
    degrees. *)
Definition direction_of_angle (angle : float) : string :=
  if ((-22.5 <=? angle) && (angle <? 22.5))%float then "east"
  else if ((22.5 <=? angle) && (angle <? 67.5))%float then "northeast"
  else if ((67.5 <=? angle) && (angle <? 112.5))%float then "north"
  else if ((112.5 <=? angle) && (angle <? 157.5))%float then "northwest"
  else if ((157.5 <=? angle) || (angle <? -157.5))%float then "west"
  else if ((-157.5 <=? angle) && (angle <? -112.5))%float then "southwest"
  else if ((-112.5 <=? angle) && (angle <? -67.5))%float then "south"
  else if ((-67.5 <=? angle) && (angle <? -22.5))%float then "southeast"
  else "forward".

Definition getDirection (from to : Position) : string :=
  let '(x1, _, z1) := from in
  let '(x2, _, z2) := to in
  let dx := (x2 - x1)%float in
  let dz := (z2 - z1)%float in
  let angle := (JS.Math_atan2 dz dx * 180 / JS.Math_PI)%float in
  direction_of_angle angle.

(** ** Outcomes of a call *)

Inductive Error : Type :=
  | TypeError.

Inductive Outcome (A : Type) : Type :=
  | Done (a : A)
  | Thrown (e : Error)
  | OutOfFuel.

Arguments Done {A} a.
Arguments Thrown {A} e.
Arguments OutOfFuel {A}.

#[global] Instance Outcome_ret : MRet Outcome := fun A a => Done a.

#[global] Instance Outcome_bind : MBind Outcome := fun A B k m =>
  match m with
  | Done a => k a
  | Thrown e => Thrown e
  | OutOfFuel => OutOfFuel
  end.

#[global] Instance Outcome_fmap : FMap Outcome := fun A B f m =>
  match m with
  | Done a => Done (f a)
  | Thrown e => Thrown e
  | OutOfFuel => OutOfFuel
  end.

(** ** The search *)

(** The three locals of [findPath] that the search loop updates. *)
Record SearchState : Type := mkState {
  distances : gmap string float;
  previous : gmap string (option string);
  unvisited : list string
}.

(** [distances[k]] read as a number. *)
Definition number_at (d : gmap string float) (k : string) : float :=
  default nan (d !! k).

(** [previous[current]]: the entry written for the key of [current],
    [undefined] when none was written. *)
Definition previous_at (p : gmap string (option string)) (current : JS.value)
  : JS.value :=
  match p !! JS.to_key current with
  | Some (Some s) => JS.Str s
  | Some None => JS.Null
  | None => JS.Undefined
  end.

(** The initialisation loop over [Object.keys(navigationNodes)]. *)
Definition init_maps (keys : list string) (startId : string)
  : gmap string float * gmap string (option string) :=
  fold_left
    (fun acc nodeId =>
       (<[nodeId := if String.eqb nodeId startId then 0%float else infinity]>
          (fst acc),
        <[nodeId := None]> (snd acc)))
    keys (∅, ∅).

(** The scan for the unvisited node of minimum distance: the pair
    [(currentNode, minDistance)] after the loop. *)
Definition find_min (d : gmap string float) (unv : list string)
  : option string * float :=
  fold_left
    (fun acc nodeId =>
       if (number_at d nodeId <? snd acc)%float
       then (Some nodeId, number_at d nodeId)
       else acc)
    unv (None, infinity).

(** One turn of the loop over [node.connections]. *)
Definition relax (g : Graph) (currentNode : string) (node : PathNode.t)
  (st : SearchState) (neighborId : string) : Outcome SearchState :=
  if negb (JS.Set_has (unvisited st) neighborId) then Done st
  else
    match lookup_node g neighborId with
    | None => Thrown TypeError
    | Some neighbor =>
        let distance :=
          calculateDistance (PathNode.position node)
                            (PathNode.position neighbor) in
        let newDistance :=
          (number_at (distances st) currentNode + distance)%float in
        if (newDistance <? number_at (distances st) neighborId)%float then
          Done (mkState (<[neighborId := newDistance]> (distances st))
                        (<[neighborId := Some currentNode]> (previous st))
                        (unvisited st))
        else Done st
    end.

Fixpoint relax_all (g : Graph) (currentNode : string) (node : PathNode.t)
  (st : SearchState) (cs : list string) : Outcome SearchState :=
  match cs with
  | [] => Done st
  | neighborId :: cs' =>
      st' ← relax g currentNode node st neighborId;
      relax_all g currentNode node st' cs'
  end.

(** The [while (unvisited.size > 0)] loop. *)
Fixpoint search (fuel : nat) (g : Graph) (endId : string) (st : SearchState)
  : Outcome SearchState :=
  match unvisited st with
  | [] => Done st
  | _ :: _ =>
      match fuel with
      | O => OutOfFuel
      | S fuel' =>
          match fst (find_min (distances st) (unvisited st)) with
          | None => Done st
          | Some currentNode =>
              if JS.falsy currentNode
                 || (number_at (distances st) currentNode =? infinity)%float
              then Done st
              else
                let st1 :=
                  mkState (distances st) (previous st)
                          (JS.Set_delete (unvisited st) currentNode) in
                if String.eqb currentNode endId then Done st1
                else
                  match lookup_node g currentNode with
                  | None => Thrown TypeError
                  | Some node =>
                      st2 ← relax_all g currentNode node st1
                                      (PathNode.connections node);
                      search fuel' g endId st2
                  end
          end
      end
  end.

(** The [while (current !== null)] walk along [previous]. *)
Fixpoint reconstruct (fuel : nat) (p : gmap string (option string))
  (current : JS.value) (path : list JS.value) : Outcome (list JS.value) :=
  match current with
  | JS.Null => Done path
  | _ =>
      match fuel with
      | O => OutOfFuel
      | S fuel' => reconstruct fuel' p (previous_at p current) (current :: path)
      end
  end.

(** ** The synthesis of the steps *)

(** The text and the [floorChange] of a step.  A floor is an integer,
    as all floors of the data are, and is printed as its decimal
    numeral; this is what the template literal prints for an integer
    below 10^21 in absolute value. *)
Definition instruction_of (fromNode toNode : PathNode.t) (direction : string)
  : string * option FloorChange :=
  match PathNode.type toNode with
  | stairs =>
      if (PathNode.floor toNode >? PathNode.floor fromNode)%Z then
        ("Take the stairs up to floor " +:+ pretty (PathNode.floor toNode),
         Some up)
      else
        ("Take the stairs down to floor " +:+ pretty (PathNode.floor toNode),
         Some down)
  | elevator =>
      if (PathNode.floor toNode >? PathNode.floor fromNode)%Z then
        ("Take the elevator up to floor " +:+ pretty (PathNode.floor toNode),
         Some up)
      else if (PathNode.floor toNode <? PathNode.floor fromNode)%Z then
        ("Take the elevator down to floor " +:+ pretty (PathNode.floor toNode),
         Some down)
      else ("Continue to the elevator", None)
  | room => ("Arrive at " +:+ PathNode.id toNode, None)
  | hallway => ("Continue " +:+ direction +:+ " down the hallway", None)
  | entrance => ("Head " +:+ direction, None)
  end.

(** The body of the [for] loop at one index: [a] is [path[i]], [b] is
    [path[i + 1]]. *)
Definition make_step (g : Graph) (a b : JS.value) : Outcome PathStep.t :=
  match lookup_node g (JS.to_key a), lookup_node g (JS.to_key b) with
  | Some fromNode, Some toNode =>
      let direction :=
        getDirection (PathNode.position fromNode) (PathNode.position toNode) in
      let distance :=
        calculateDistance (PathNode.position fromNode)
                          (PathNode.position toNode) in
      let '(instruction, floorChange) :=
        instruction_of fromNode toNode direction in
      Done (PathStep.mk (PathNode.id fromNode) (PathNode.id toNode) direction
              (JS.Math_round (distance * 10) / 10)%float
              instruction (PathNode.floor toNode) floorChange)
  | _, _ => Thrown TypeError
  end.

Fixpoint steps_of (g : Graph) (path : list JS.value)
  : Outcome (list PathStep.t) :=
  match path with
  | a :: (b :: _) as rest =>
      s ← make_step g a b;
      ss ← steps_of g rest;
      Done (s :: ss)
  | _ => Done []
  end.

(** ** [findPath] *)

(** The state in which the search loop ends. *)
Definition solve (fuel : nat) (g : Graph) (startId endId : string)
  : Outcome SearchState :=
  let keys := Object_keys g in
  let maps := init_maps keys startId in
  search fuel g endId (mkState (fst maps) (snd maps) (JS.Set_of keys)).

(** The array [path] after the predecessor walk. *)
Definition path_of (fuel : nat) (g : Graph) (startId endId : string)
  : Outcome (list JS.value) :=
  st ← solve fuel g startId endId;
  reconstruct fuel (previous st) (JS.Str endId) [].

Definition findPath_fuel (fuel : nat) (g : Graph) (startId endId : string)
  : Outcome (list PathStep.t) :=
  path ← path_of fuel g startId endId;
  steps_of g path.

(** Fuel that covers every run over [g] that returns. *)
Definition enough_fuel (g : Graph) : nat := S (S (length g)).

(** [findPath] over an arbitrary record of nodes. *)
Definition findPath_on (g : Graph) (startId endId : string)
  : Outcome (list PathStep.t) :=
  findPath_fuel (enough_fuel g) g startId endId.

(** [findPath] of the module, over [navigationNodes]. *)
Definition findPath (startId endId : string) : Outcome (list PathStep.t) :=
  findPath_on navigationNodes startId endId.

(** ** [getPathNodes] *)

Definition getPathNodes (steps : list PathStep.t) : list string :=
  fold_left
    (fun nodes step =>
       JS.Set_add (JS.Set_add nodes (PathStep.from step)) (PathStep.to step))
    steps [].

(** ** Vocabulary of the statements *)

(** *** Keys, connections, walks *)

(** [k] is a key of the record [g]. *)
Definition is_key (g : Graph) (k : string) : Prop := k ∈ map fst g.

#[global] Instance is_key_dec (g : Graph) (k : string) : Decision (is_key g k).
Proof. unfold is_key. apply _. Defined.

(** [u] lists [v] among its connections, and [v] is a node. *)
Definition edge (g : Graph) (u v : string) : Prop :=
  ∃ n, lookup_node g u = Some n ∧ v ∈ PathNode.connections n ∧ is_key g v.

#[global] Instance edge_dec (g : Graph) (u v : string) : Decision (edge g u v).
Proof.
  unfold edge. destruct (lookup_node g u) as [n|].
  - destruct (decide (v ∈ PathNode.connections n ∧ is_key g v)) as [H|H].
    + left. by exists n.
    + right. intros (n' & [= <-] & H'). by apply H.
  - right. by intros (n' & [=] & _).
Defined.

(** [b] can be reached from [a] along connections. *)
Definition reachable (g : Graph) : relation string := rtc (edge g).

(** Consecutive nodes of a list are joined by connections. *)
Fixpoint linked (g : Graph) (q : list string) : Prop :=
  match q with
  | u :: (v :: _) as rest => edge g u v ∧ linked g rest
  | _ => True
  end.

#[global] Instance linked_dec (g : Graph) (q : list string) :
  Decision (linked g q).
Proof.
  induction q as [|u [|v rest] IH]; simpl; [apply _..|].
  apply and_dec; [apply _|exact IH].
Defined.

(** A walk from [a]: a list of nodes that starts with [a], each node
    listed among the connections of the one before it. *)
Inductive walk (g : Graph) (a : string) : list string → string → Prop :=
  | walk_start : is_key g a → walk g a [a] a
  | walk_step q u v : walk g a q u → edge g u v → walk g a (q ++ [v]) v.

(** *** Step lists *)

(** Consecutive steps chain: the [to] of one is the [from] of the
    next. *)
Fixpoint chained (steps : list PathStep.t) : Prop :=
  match steps with
  | s :: (t :: _) as rest => PathStep.to s = PathStep.from t ∧ chained rest
  | _ => True
  end.

#[global] Instance chained_dec (steps : list PathStep.t) :
  Decision (chained steps).
Proof.
  induction steps as [|s [|t rest] IH]; simpl; [apply _..|].
  apply and_dec; [apply _|exact IH].
Defined.

(** The ids of a step list read in order: every [from], then the last
    [to]. *)
Definition waypoints (steps : list PathStep.t) : list string :=
  match steps with
  | [] => []
  | s :: _ => PathStep.from s :: map PathStep.to steps
  end.

(** The values of the [floorChange] field along a route. *)
Definition floorChanges (steps : list PathStep.t)
  : list (option FloorChange) :=
  map PathStep.floorChange steps.

(** The number of steps whose [floorChange] is set. *)
Definition transitions (steps : list PathStep.t) : nat :=
  length (List.filter (fun s => match PathStep.floorChange s with
                                | Some _ => true
                                | None => false
                                end) steps).

(** A list of integers never decreases. *)
Fixpoint nondecreasing (l : list Z) : Prop :=
  match l with
  | x :: (y :: _) as rest => (x <= y)%Z ∧ nondecreasing rest
  | _ => True
  end.

(** A call [findPath(a, b)] over [g] with a well-formed answer: it
    returns a
    non-empty step list, one step per consecutive pair of the
    reconstructed path, from [a] to [b], whose steps chain. *)
Definition good_route (g : Graph) (a b : string) : Prop :=
  match findPath_on g a b with
  | Done steps =>
      path_of (enough_fuel g) g a b = Done (JS.Str <$> waypoints steps)
      ∧ steps ≠ []
      ∧ S (length steps) = length (waypoints steps)
      ∧ PathStep.from <$> head steps = Some a
      ∧ PathStep.to <$> last steps = Some b
      ∧ chained steps
  | _ => False
  end.

#[global] Instance value_eq_dec : EqDecision JS.value.
Proof. solve_decision. Defined.

#[global] Instance Error_eq_dec : EqDecision Error.
Proof. solve_decision. Defined.

#[global] Instance Outcome_eq_dec {A : Type} `{EqDecision A} :
  EqDecision (Outcome A).
Proof. solve_decision. Defined.

#[global] Instance good_route_dec (g : Graph) (a b : string) :
  Decision (good_route g a b).
Proof. unfold good_route. destruct (findPath_on g a b); apply _. Defined.

(** *** The ids of a step list *)

(** The ids an instruction list refers to, in the order in which
    [getPathNodes] reads them. *)
Definition endpoints (steps : list PathStep.t) : list string :=
  flat_map (fun s => [PathStep.from s; PathStep.to s]) steps.

(** Specification of "the distinct elements in first-seen order": keep
    the first occurrence of each element, drop the later ones. *)
Fixpoint first_seen (l : list string) : list string :=
  match l with
  | [] => []
  | x :: l' =>
      x :: List.filter (fun y => negb (String.eqb x y)) (first_seen l')
  end.

(** *** Sectors of the compass *)

(** The angle, in degrees, that [getDirection] computes. *)
Definition bearing (from to : Position) : float :=
  (JS.Math_atan2 (to.2 - from.2) (to.1.1 - from.1.1) * 180
   / JS.Math_PI)%float.

(** The eight compass labels. *)
Definition compass : list string :=
  ["east"; "northeast"; "north"; "northwest";
   "west"; "southwest"; "south"; "southeast"].

(** The interval test that [getDirection] attaches to a label. *)
Definition in_sector (label : string) (angle : float) : bool :=
  if String.eqb label "east" then
    ((-22.5 <=? angle) && (angle <? 22.5))%float
  else if String.eqb label "northeast" then
    ((22.5 <=? angle) && (angle <? 67.5))%float
  else if String.eqb label "north" then
    ((67.5 <=? angle) && (angle <? 112.5))%float
  else if String.eqb label "northwest" then
    ((112.5 <=? angle) && (angle <? 157.5))%float
  else if String.eqb label "west" then
    ((157.5 <=? angle) || (angle <? -157.5))%float
  else if String.eqb label "southwest" then
    ((-157.5 <=? angle) && (angle <? -112.5))%float
  else if String.eqb label "south" then
    ((-112.5 <=? angle) && (angle <? -67.5))%float
  else if String.eqb label "southeast" then
    ((-67.5 <=? angle) && (angle <? -22.5))%float
  else false.

(** The lower bound of each sector, going round from the south-west;
    the sector of a bound ends 45 degrees further, and the last one
    (west) wraps from 180 to -180. *)
Definition sector_bounds : list (string * float) :=
  [("southwest", -157.5); ("south", -112.5); ("southeast", -67.5);
   ("east", -22.5); ("northeast", 22.5); ("north", 67.5);
   ("northwest", 112.5); ("west", 157.5)]%float.

(** The body of [getDirection] over an implementation [atan2] of
    [Math.atan2], and the angle in degrees that it computes. *)
Definition getDirection_with (atan2 : float → float → float)
  (from to : Position) : string :=
  let '(x1, _, z1) := from in
  let '(x2, _, z2) := to in
  let dx := (x2 - x1)%float in
  let dz := (z2 - z1)%float in
  let angle := (atan2 dz dx * 180 / JS.Math_PI)%float in
  direction_of_angle angle.

Definition bearing_with (atan2 : float → float → float)
  (from to : Position) : float :=
  (atan2 (to.2 - from.2) (to.1.1 - from.1.1) * 180 / JS.Math_PI)%float.

(** What ECMA-262 fixes of every implementation of [Math.atan2]: the
    result is NaN exactly when an argument is. *)
Definition nan_only_of_nan (atan2 : float → float → float) : Prop :=
  ∀ y x, is_nan (atan2 y x) = is_nan y || is_nan x.

(** *** Two other records *)

(** A record with two nodes and no connection between them. *)
Definition two_islands : Graph := [
  node "A" (0, 0, 0)%float 1 room [];
  node "B" (1, 0, 0)%float 1 room []
].

(** A record in which the direct connection from A to B is shorter
    than the way round by C, by less than the rounding of a step. *)
Definition detour : Graph := [
  node "A" (0, 0, 0)%float 1 hallway ["B"; "C"];
  node "C" (1, 1, 1.015625)%float 1 hallway ["B"];
  node "B" (2, 2, 2)%float 1 hallway []
].

(** *** The invariant of the search *)

(** What the search loop maintains, for a search from [a] over [g]:
    the three locals range over the keys of [g], and a node whose
    distance has been lowered, or whose predecessor is set, can be
    reached from [a]. *)
Record search_inv (g : Graph) (a : string) (st : SearchState) : Prop := {
  inv_unvisited : ∀ k, k ∈ unvisited st → is_key g k;
  inv_distances : ∀ k, is_key g k → is_Some (distances st !! k);
  inv_previous : ∀ k, is_Some (previous st !! k) ↔ is_key g k;
  inv_reached : ∀ k x,
    distances st !! k = Some x → (x =? infinity)%float = false →
    reachable g a k;
  inv_pred : ∀ k q, previous st !! k = Some (Some q) → reachable g a k
}.

(** *** The predecessor chains *)

(** [ancestry p k path]: following [p] from [k] ends at an entry that
    is [null]; [path] lists the nodes met, the last one first met. *)
Inductive ancestry (p : gmap string (option string))
  : string → list string → Prop :=
  | ancestry_root k : p !! k = Some None → ancestry p k [k]
  | ancestry_step k q path :
      p !! k = Some (Some q) → ancestry p q path →
      ancestry p k (path ++ [k]).

(** What the search loop maintains about [previous]: from every key
    the chain of predecessors is a list of distinct linked nodes, all
    visited but possibly the key itself, that starts at [a] unless the
    key has no predecessor; a node of finite distance is [a] or has a
    predecessor; and no predecessor is set while [a] is unvisited. *)
Record chain_inv (g : Graph) (a : string) (st : SearchState) : Prop := {
  chain_paths : ∀ k, is_key g k →
    ∃ path,
      ancestry (previous st) k path
      ∧ NoDup path
      ∧ (∀ x, x ∈ path → x ≠ k → x ∉ unvisited st)
      ∧ (∀ x, x ∈ path → is_key g x)
      ∧ linked g path
      ∧ (path = [k] ∨ head path = Some a);
  chain_finite : ∀ k x,
    distances st !! k = Some x → (x =? infinity)%float = false →
    k = a ∨ ∃ q, previous st !! k = Some (Some q);
  chain_start : a ∈ unvisited st → ∀ k q, previous st !! k ≠ Some (Some q)
}.

(** *** Exact lengths *)

(** The value of a finite binary64 number, counted in units of 2^-1074
    (every finite binary64 number is an integer multiple of it). *)
Definition exact (x : float) : Z :=
  match Prim2SF x with
  | S754_finite s m e => cond_Zopp s (Z.shiftl (Z.pos m) (e + 1074))
  | _ => 0%Z
  end.

(** The length of the connection from [u] to [v]: the distance of
    their positions, exactly. *)
Definition edge_length (g : Graph) (u v : string) : Z :=
  match lookup_node g u, lookup_node g v with
  | Some n, Some m =>
      exact (calculateDistance (PathNode.position n) (PathNode.position m))
  | _, _ => 0%Z
  end.

(** The sum of the edge lengths along a list of nodes. *)
Fixpoint walk_length (g : Graph) (q : list string) : Z :=
  match q with
  | u :: (v :: _) as rest => (edge_length g u v + walk_length g rest)%Z
  | _ => 0%Z
  end.

(** The sum of the [distance] fields of a step list. *)
Definition total_distance (steps : list PathStep.t) : Z :=
  foldr (fun s acc => (exact (PathStep.distance s) + acc)%Z) 0%Z steps.

(** The connections of [g] that lead to a node of [g]. *)
Definition edges_of (g : Graph) : list (string * string) :=
  flat_map
    (fun p => map (fun c => (fst p, c))
                  (List.filter (fun c => bool_decide (is_key g c))
                               (PathNode.connections (snd p))))
    g.

(** *** A certificate for the routes from one start *)

(** [cert_tree v] is a route from the start to [v], [cert_pred v] its
    last but one node, and [cert_next v] a lower bound on the length of
    every other walk from the start to [v]. *)
Record Certificate : Type := mkCert {
  cert_pred : gmap string string;
  cert_tree : gmap string (list string);
  cert_next : gmap string Z
}.

(** Stands for "no bound yet" in the computation of [cert_next]. *)
Definition far : Z := Z.shiftl 1 2000.

Definition bound_at (m : gmap string Z) (k : string) : Z :=
  default far (m !! k).

Definition tree_at (m : gmap string (list string)) (k : string)
  : list string :=
  default [] (m !! k).

(** The walk up the predecessors recorded by a search from [a] that
    visits every node. *)
Fixpoint tree_path (fuel : nat) (p : gmap string (option string))
  (v : string) (acc : list string) : list string :=
  match fuel with
  | O => acc
  | S fuel' =>
      match p !! v with
      | Some (Some u) => tree_path fuel' p u (v :: acc)
      | _ => v :: acc
      end
  end.

(** One round of lowering the bounds along every edge. *)
Definition lower_bounds (g : Graph) (pred : gmap string string)
  (tree : gmap string (list string)) (next : gmap string Z)
  : gmap string Z :=
  fold_left
    (fun acc e =>
       let '(u, v) := e in
       let w := edge_length g u v in
       let via_other := (bound_at acc u + w)%Z in
       let via_tree :=
         if bool_decide (pred !! v = Some u) then far
         else (walk_length g (tree_at tree u) + w)%Z in
       <[v := Z.min (bound_at acc v) (Z.min via_other via_tree)]> acc)
    (edges_of g) next.

(** The certificate read off a search from [a] that is never stopped
    (the empty string is no [currentNode] that passes the falsy test,
    so it is an [endId] that is never reached). *)
Definition certificate (g : Graph) (a : string) : Certificate :=
  let keys := Object_keys g in
  match solve (enough_fuel g) g a "" with
  | Done st =>
      let pred :=
        omap (fun o : option string => o) (previous st) in
      let tree :=
        list_to_map
          (map (fun v => (v, tree_path (length g) (previous st) v [])) keys) in
      let next :=
        Nat.iter (length g) (lower_bounds g pred tree) ∅ in
      mkCert pred tree next
  | _ => mkCert ∅ ∅ ∅
  end.

(** What is checked of a certificate for the start [a]. *)
Definition certificate_ok (g : Graph) (a : string) (c : Certificate) : Prop :=
  tree_at (cert_tree c) a = [a]
  ∧ Forall
      (fun e =>
         (bound_at (cert_next c) (snd e)
          <= bound_at (cert_next c) (fst e) + edge_length g (fst e) (snd e))%Z
         ∧ (if bool_decide (cert_pred c !! snd e = Some (fst e))
            then tree_at (cert_tree c) (snd e)
                 = tree_at (cert_tree c) (fst e) ++ [snd e]
            else (bound_at (cert_next c) (snd e)
                  <= walk_length g (tree_at (cert_tree c) (fst e))
                     + edge_length g (fst e) (snd e))%Z))
      (edges_of g)
  ∧ Forall
      (fun b =>
         path_of (enough_fuel g) g a b
           = Done (JS.Str <$> tree_at (cert_tree c) b)
         ∧ match findPath_on g a b with
           | Done steps =>
               (total_distance steps <= bound_at (cert_next c) b)%Z
           | _ => False
           end)
      (Object_keys g).

#[global] Instance certificate_ok_dec (g : Graph) (a : string)
  (c : Certificate) : Decision (certificate_ok g a c).
Proof.
  unfold certificate_ok.
  apply and_dec; [apply _|]. apply and_dec.
  - apply Forall_dec. intros e. apply and_dec; [apply _|].
    destruct (bool_decide _); apply _.
  - apply Forall_dec. intros b. apply and_dec; [apply _|].
    destruct (findPath_on g a b); apply _.
Defined.

(** Every start of the shipped graph has a certificate that passes. *)
Definition all_certificates_ok : Prop :=
  Forall (fun a => certificate_ok navigationNodes a
                     (certificate navigationNodes a))
         (Object_keys navigationNodes).

(** The routes of a certificate for the start [a] are lists of linked
    nodes from [a] to each node of [g]. *)
Definition tree_routes_ok (g : Graph) (a : string) (c : Certificate) : Prop :=
  Forall
    (fun b =>
       head (tree_at (cert_tree c) b) = Some a
       ∧ last (tree_at (cert_tree c) b) = Some b
       ∧ linked g (tree_at (cert_tree c) b))
    (map fst g).

#[global] Instance tree_routes_ok_dec (g : Graph) (a : string)
  (c : Certificate) : Decision (tree_routes_ok g a c).
Proof. unfold tree_routes_ok. apply _. Defined.

(** ** Tactics *)

(** Decides a closed decidable proposition by evaluation. *)
Ltac by_evaluation := apply (bool_decide_unpack _); vm_compute; exact I.

(** Splits on every comparison of [label] with a string of the goal. *)
Ltac label_cases label :=
  repeat match goal with
  | |- context [String.eqb label ?s] =>
      destruct (String.eqb_spec label s) as [->|?]
  end.

(** * Properties *)

(** ** Sets and keys *)

Lemma Set_has_true (s : list string) (x : string) :
  JS.Set_has s x = true ↔ x ∈ s.
Proof.
  unfold JS.Set_has. rewrite existsb_exists. split.
  - intros (y & Hy & Heq). apply String.eqb_eq in Heq. subst y.
    by apply list_elem_of_In.
  - intros H. exists x. split; [by apply list_elem_of_In | apply String.eqb_refl].
Qed.

Lemma Set_has_false (s : list string) (x : string) :
  JS.Set_has s x = false ↔ x ∉ s.
Proof.
  rewrite <- Set_has_true. destruct (JS.Set_has s x); split; congruence.
Qed.

Lemma elem_of_Set_delete (s : list string) (x y : string) :
  y ∈ JS.Set_delete s x ↔ y ∈ s ∧ y ≠ x.
Proof.
  unfold JS.Set_delete. rewrite !list_elem_of_In, filter_In, negb_true_iff.
  rewrite String.eqb_neq. naive_solver.
Qed.

Lemma Set_delete_length (s : list string) (x : string) :
  x ∈ s → length (JS.Set_delete s x) < length s.
Proof.
  unfold JS.Set_delete. induction s as [|y s IH]; intros Hin.
  - by apply elem_of_nil in Hin.
  - simpl. destruct (String.eqb_spec x y) as [->|Hne]; simpl.
    + pose proof (List.filter_length_le (fun z => negb (String.eqb y z)) s). lia.
    + apply elem_of_cons in Hin as [?|Hin]; [done|]. specialize (IH Hin). lia.
Qed.

Lemma elem_of_Set_add (s : list string) (x y : string) :
  y ∈ JS.Set_add s x ↔ y ∈ s ∨ y = x.
Proof.
  unfold JS.Set_add. destruct (JS.Set_has s x) eqn:E.
  - apply Set_has_true in E. naive_solver.
  - rewrite elem_of_app, list_elem_of_singleton. done.
Qed.

Lemma Set_add_length (s : list string) (x : string) :
  length (JS.Set_add s x) ≤ S (length s).
Proof.
  unfold JS.Set_add. destruct (JS.Set_has s x); [lia|].
  rewrite length_app. simpl. lia.
Qed.

Lemma fold_Set_add_elem (l acc : list string) (y : string) :
  y ∈ fold_left JS.Set_add l acc ↔ y ∈ acc ∨ y ∈ l.
Proof.
  revert acc. induction l as [|x l IH]; intros acc; simpl.
  - rewrite elem_of_nil. naive_solver.
  - rewrite IH, elem_of_Set_add, elem_of_cons. naive_solver.
Qed.

Lemma fold_Set_add_length (l acc : list string) :
  length (fold_left JS.Set_add l acc) ≤ length acc + length l.
Proof.
  revert acc. induction l as [|x l IH]; intros acc; simpl; [lia|].
  specialize (IH (JS.Set_add acc x)). pose proof (Set_add_length acc x). lia.
Qed.

Lemma elem_of_Set_of (l : list string) (y : string) : y ∈ JS.Set_of l ↔ y ∈ l.
Proof.
  unfold JS.Set_of. rewrite fold_Set_add_elem, elem_of_nil. naive_solver.
Qed.

Lemma Set_of_length (l : list string) : length (JS.Set_of l) ≤ length l.
Proof. apply (fold_Set_add_length l []). Qed.

Lemma elem_of_insert_index (p q : N * string) (l : list (N * string)) :
  q ∈ JS.insert_index p l ↔ q = p ∨ q ∈ l.
Proof.
  induction l as [|r l IH]; simpl.
  - rewrite list_elem_of_singleton, elem_of_nil. naive_solver.
  - destruct (fst p <? fst r)%N.
    + by rewrite elem_of_cons.
    + rewrite !elem_of_cons, IH. naive_solver.
Qed.

Lemma insert_index_length (p : N * string) (l : list (N * string)) :
  length (JS.insert_index p l) = S (length l).
Proof.
  induction l as [|r l IH]; simpl; [done|].
  destruct (fst p <? fst r)%N; simpl; lia.
Qed.

Lemma elem_of_own_keys_order (ks : list string) (k : string) :
  k ∈ JS.own_keys_order ks ↔ k ∈ ks.
Proof.
  unfold JS.own_keys_order.
  set (step := fun (acc : list (N * string)) (k : string) =>
         match JS.array_index k with
         | Some n => JS.insert_index (n, k) acc
         | None => acc
         end).
  assert (Hfold : ∀ l acc q, q ∈ fold_left step l acc ↔
            q ∈ acc ∨ (snd q ∈ l ∧ JS.array_index (snd q) = Some (fst q))).
  { induction l as [|x l IH]; intros acc q; simpl.
    - rewrite elem_of_nil. naive_solver.
    - rewrite IH, elem_of_cons. clear IH. unfold step.
      destruct (JS.array_index x) as [n|] eqn:E.
      + rewrite elem_of_insert_index. destruct q as [m s]; simpl.
        split; [|naive_solver].
        intros [[Heq|?]|?]; [|naive_solver..].
        inversion Heq; subst. naive_solver.
      + destruct q as [m s]; simpl. split; [naive_solver|].
        intros [?|[[->|?] ?]]; [naive_solver|congruence|naive_solver]. }
  rewrite elem_of_app, list_elem_of_fmap, list_elem_of_In, filter_In,
    <- list_elem_of_In.
  split.
  - intros [([n s] & -> & Hq)|[? _]]; [|done].
    apply Hfold in Hq. rewrite elem_of_nil in Hq. naive_solver.
  - intros Hk. destruct (JS.array_index k) as [n|] eqn:E; [left|by right].
    exists (n, k). split; [done|]. apply Hfold. right. done.
Qed.

Lemma own_keys_order_length (ks : list string) :
  length (JS.own_keys_order ks) = length ks.
Proof.
  unfold JS.own_keys_order.
  set (idx := fun k : string => match JS.array_index k with
                      | Some _ => false | None => true end).
  set (step := fun (acc : list (N * string)) (k : string) =>
         match JS.array_index k with
         | Some n => JS.insert_index (n, k) acc
         | None => acc
         end).
  assert (Hfold : ∀ l acc, length (fold_left step l acc) + length (List.filter idx l)
                           = length acc + length l).
  { subst step idx. induction l as [|x l IH]; intros acc; simpl; [lia|].
    destruct (JS.array_index x) as [n|]; simpl.
    - specialize (IH (JS.insert_index (n, x) acc)).
      rewrite insert_index_length in IH. lia.
    - specialize (IH acc). lia. }
  rewrite length_app, length_map. specialize (Hfold ks []). simpl in Hfold. lia.
Qed.

Lemma elem_of_Object_keys (g : Graph) (k : string) :
  k ∈ Object_keys g ↔ is_key g k.
Proof. apply elem_of_own_keys_order. Qed.

Lemma Object_keys_length (g : Graph) : length (Object_keys g) = length g.
Proof. unfold Object_keys. by rewrite own_keys_order_length, length_map. Qed.

Lemma is_key_lookup (g : Graph) (k : string) :
  is_key g k ↔ is_Some (lookup_node g k).
Proof.
  unfold is_key, lookup_node. induction g as [|[k' n] g IH]; simpl.
  - rewrite elem_of_nil. split; [done|]. by intros [? ?].
  - rewrite elem_of_cons. destruct (String.eqb_spec k' k) as [->|Hne]; simpl.
    + split; [eauto|by left].
    + rewrite IH. split; [|by right]. intros [?|?]; [congruence|done].
Qed.

(** ** The initial maps *)

Lemma init_maps_distances (keys : list string) (a k : string) :
  fst (init_maps keys a) !! k =
  if decide (k ∈ keys)
  then Some (if String.eqb k a then 0%float else infinity) else None.
Proof.
  unfold init_maps.
  set (f := fun (acc : gmap string float * gmap string (option string))
                (nodeId : string) =>
              (<[nodeId := if String.eqb nodeId a then 0%float else infinity]>
                 (fst acc), <[nodeId := None]> (snd acc))).
  assert (H : ∀ l acc, fst (fold_left f l acc) !! k =
            if decide (k ∈ l)
            then Some (if String.eqb k a then 0%float else infinity)
            else fst acc !! k).
  { induction l as [|x l IH]; intros acc; cbn [fold_left].
    - case_decide as Hin; [by apply elem_of_nil in Hin|done].
    - rewrite IH. subst f. cbn [fst snd].
      destruct (decide (k ∈ l)) as [Hin|Hin].
      + rewrite decide_True; [done|by right].
      + destruct (decide (x = k)) as [->|Hne].
        * rewrite lookup_insert_eq. rewrite decide_True; [done|by left].
        * rewrite lookup_insert_ne by done.
          rewrite decide_False; [done|]. rewrite elem_of_cons. naive_solver. }
  rewrite H. by destruct (decide (k ∈ keys)).
Qed.

Lemma init_maps_previous (keys : list string) (a k : string) :
  snd (init_maps keys a) !! k = if decide (k ∈ keys) then Some None else None.
Proof.
  unfold init_maps.
  set (f := fun (acc : gmap string float * gmap string (option string))
                (nodeId : string) =>
              (<[nodeId := if String.eqb nodeId a then 0%float else infinity]>
                 (fst acc), <[nodeId := None]> (snd acc))).
  assert (H : ∀ l acc, snd (fold_left f l acc) !! k =
            if decide (k ∈ l) then Some None else snd acc !! k).
  { induction l as [|x l IH]; intros acc; cbn [fold_left].
    - case_decide as Hin; [by apply elem_of_nil in Hin|done].
    - rewrite IH. subst f. cbn [fst snd].
      destruct (decide (k ∈ l)) as [Hin|Hin].
      + rewrite decide_True; [done|by right].
      + destruct (decide (x = k)) as [->|Hne].
        * rewrite lookup_insert_eq. rewrite decide_True; [done|by left].
        * rewrite lookup_insert_ne by done.
          rewrite decide_False; [done|]. rewrite elem_of_cons. naive_solver. }
  rewrite H. by destruct (decide (k ∈ keys)).
Qed.

(** ** The scan for the minimum *)

Lemma find_min_elem (d : gmap string float) (unv : list string) (c : string) :
  fst (find_min d unv) = Some c → c ∈ unv.
Proof.
  unfold find_min.
  assert (H : ∀ l acc,
    fst (fold_left
           (fun acc nodeId =>
              if (number_at d nodeId <? snd acc)%float
              then (Some nodeId, number_at d nodeId) else acc) l acc) = Some c →
    c ∈ l ∨ fst acc = Some c).
  { induction l as [|x l IH]; intros acc; simpl; [by right|].
    intros Hc. apply IH in Hc as [?|Hc]; [left; by right|].
    destruct (number_at d x <? snd acc)%float; simpl in Hc.
    - inversion Hc; subst. left. by left.
    - by right. }
  intros Hc. apply H in Hc as [?|?]; done.
Qed.

Lemma find_min_none (d : gmap string float) (unv : list string) :
  (∀ x, x ∈ unv → (number_at d x <? infinity)%float = false) →
  find_min d unv = (None, infinity).
Proof.
  unfold find_min. induction unv as [|x l IH]; intros H; simpl; [done|].
  rewrite (H x) by (by left). apply IH. intros y Hy. apply H. by right.
Qed.

Lemma find_min_start (d : gmap string float) (unv : list string) (w : string) :
  (∀ x, x ∈ unv →
        number_at d x = if String.eqb x w then 0%float else infinity) →
  w ∈ unv →
  find_min d unv = (Some w, 0%float).
Proof.
  unfold find_min. intros Hd.
  assert (H : ∀ l, (∀ x, x ∈ l → x ∈ unv) →
    fold_left
      (fun acc nodeId =>
         if (number_at d nodeId <? snd acc)%float
         then (Some nodeId, number_at d nodeId) else acc) l (Some w, 0%float)
    = (Some w, 0%float)).
  { induction l as [|x l IH]; intros Hl; simpl; [done|].
    rewrite Hd by (apply Hl; by left).
    destruct (String.eqb x w); simpl;
      (replace (0 <? 0)%float with false by reflexivity ||
       replace (infinity <? 0)%float with false by reflexivity);
      apply IH; intros y Hy; apply Hl; by right. }
  assert (H' : ∀ l, (∀ x, x ∈ l → x ∈ unv) → w ∈ l →
    fold_left
      (fun acc nodeId =>
         if (number_at d nodeId <? snd acc)%float
         then (Some nodeId, number_at d nodeId) else acc) l (None, infinity)
    = (Some w, 0%float)).
  { induction l as [|x l IH]; intros Hl Hw; simpl.
    - by apply elem_of_nil in Hw.
    - rewrite Hd by (apply Hl; by left).
      destruct (String.eqb_spec x w) as [->|Hne]; simpl.
      + replace (0 <? infinity)%float with true by reflexivity.
        apply H. intros y Hy. apply Hl. by right.
      + replace (infinity <? infinity)%float with false by reflexivity.
        apply IH; [intros y Hy; apply Hl; by right|].
        apply elem_of_cons in Hw as [?|?]; [congruence|done]. }
  intros Hw. by apply H'.
Qed.

(** ** Unfolding the loops *)

Lemma bind_Done {A B : Type} (x : A) (k : A → Outcome B) :
  (Done x ≫= k) = k x.
Proof. reflexivity. Qed.

(** One turn of the search loop. *)
Lemma search_S (fuel : nat) (g : Graph) (endId : string) (st : SearchState) :
  unvisited st ≠ [] →
  search (S fuel) g endId st =
  match fst (find_min (distances st) (unvisited st)) with
  | None => Done st
  | Some currentNode =>
      if JS.falsy currentNode
         || (number_at (distances st) currentNode =? infinity)%float
      then Done st
      else
        let st1 :=
          mkState (distances st) (previous st)
                  (JS.Set_delete (unvisited st) currentNode) in
        if String.eqb currentNode endId then Done st1
        else
          match lookup_node g currentNode with
          | None => Thrown TypeError
          | Some node =>
              st2 ← relax_all g currentNode node st1
                              (PathNode.connections node);
              search fuel g endId st2
          end
  end.
Proof. intros H. cbn [search]. by destruct (unvisited st). Qed.

(** ** The invariant of the search *)

Section Search.
Context (g : Graph) (a : string).

Lemma init_inv :
  search_inv g a
    (mkState (fst (init_maps (Object_keys g) a))
             (snd (init_maps (Object_keys g) a))
             (JS.Set_of (Object_keys g))).
Proof.
  split; simpl.
  - intros k Hk. by apply elem_of_Object_keys, elem_of_Set_of.
  - intros k Hk. rewrite init_maps_distances.
    rewrite decide_True by (by apply elem_of_Object_keys). eauto.
  - intros k. rewrite init_maps_previous, <- elem_of_Object_keys.
    case_decide; split; [by eauto|done|by intros [? ?]|done].
  - intros k x. rewrite init_maps_distances. case_decide; [|done].
    destruct (String.eqb_spec k a) as [->|_]; intros Hx Hfin.
    + apply rtc_refl.
    + inversion Hx; subst x. discriminate Hfin.
  - intros k q. rewrite init_maps_previous. by case_decide.
Qed.

Lemma relax_inv (st : SearchState) (cur : string) (n : PathNode.t)
  (nb : string) :
  search_inv g a st →
  reachable g a cur →
  lookup_node g cur = Some n →
  nb ∈ PathNode.connections n →
  ∃ st', relax g cur n st nb = Done st'
         ∧ search_inv g a st' ∧ unvisited st' = unvisited st.
Proof.
  intros Hinv Hcur Hn Hnb. unfold relax.
  destruct (JS.Set_has (unvisited st) nb) eqn:Hhas; simpl; [|by eauto].
  apply Set_has_true in Hhas.
  assert (Hkey : is_key g nb) by (by apply (inv_unvisited _ _ _ Hinv)).
  destruct (proj1 (is_key_lookup g nb) Hkey) as [nbn ->].
  destruct (_ <? _)%float; [|by eauto].
  eexists. split; [done|]. split; [|done].
  assert (Hreach : reachable g a nb).
  { eapply rtc_r; [exact Hcur|]. exists n. done. }
  split; simpl.
  - apply (inv_unvisited _ _ _ Hinv).
  - intros k Hk. destruct (decide (nb = k)) as [->|Hne].
    + rewrite lookup_insert_eq. eauto.
    + rewrite lookup_insert_ne by done. by apply (inv_distances _ _ _ Hinv).
  - intros k. destruct (decide (nb = k)) as [->|Hne].
    + rewrite lookup_insert_eq. split; eauto.
    + rewrite lookup_insert_ne by done. apply (inv_previous _ _ _ Hinv).
  - intros k x. destruct (decide (nb = k)) as [->|Hne].
    + done.
    + rewrite lookup_insert_ne by done. apply (inv_reached _ _ _ Hinv).
  - intros k q. destruct (decide (nb = k)) as [->|Hne].
    + done.
    + rewrite lookup_insert_ne by done. apply (inv_pred _ _ _ Hinv).
Qed.

Lemma relax_all_inv (cs : list string) (st : SearchState) (cur : string)
  (n : PathNode.t) :
  search_inv g a st →
  reachable g a cur →
  lookup_node g cur = Some n →
  (∀ c, c ∈ cs → c ∈ PathNode.connections n) →
  ∃ st', relax_all g cur n st cs = Done st'
         ∧ search_inv g a st' ∧ unvisited st' = unvisited st.
Proof.
  revert st. induction cs as [|c cs IH]; intros st Hinv Hcur Hn Hcs; simpl.
  - eauto.
  - destruct (relax_inv st cur n c Hinv Hcur Hn) as (st1 & -> & Hinv1 & Hu1).
    { apply Hcs. by left. }
    simpl. destruct (IH st1 Hinv1 Hcur Hn) as (st2 & -> & Hinv2 & Hu2).
    { intros c' Hc'. apply Hcs. by right. }
    exists st2. split; [done|]. split; [done|]. congruence.
Qed.

Lemma delete_inv (st : SearchState) (c : string) :
  search_inv g a st →
  search_inv g a
    (mkState (distances st) (previous st) (JS.Set_delete (unvisited st) c)).
Proof.
  intros Hinv. split; simpl; try apply Hinv.
  intros k Hk. apply elem_of_Set_delete in Hk as [Hk _].
  by apply (inv_unvisited _ _ _ Hinv).
Qed.

(** The loop ends within one turn per unvisited node, without a
    [TypeError], in a state that satisfies the invariant. *)
Lemma search_inv_run (endId : string) (fuel : nat) (st : SearchState) :
  search_inv g a st →
  length (unvisited st) < fuel →
  ∃ st', search fuel g endId st = Done st' ∧ search_inv g a st'.
Proof.
  revert st. induction fuel as [|fuel IH]; intros st Hinv Hlen; [lia|].
  simpl. destruct (unvisited st) as [|u0 us] eqn:Hunv; [by eauto|].
  rewrite <- Hunv in *.
  destruct (fst (find_min (distances st) (unvisited st))) as [c|] eqn:Hmin;
    [|by eauto].
  apply find_min_elem in Hmin.
  assert (Hkey : is_key g c) by (by apply (inv_unvisited _ _ _ Hinv)).
  destruct (inv_distances _ _ _ Hinv c Hkey) as [x Hx].
  unfold number_at. rewrite Hx. simpl.
  destruct (JS.falsy c); simpl; [by eauto|].
  destruct (x =? infinity)%float eqn:Hfin; [by eauto|].
  pose proof (delete_inv st c Hinv) as Hinv1.
  destruct (String.eqb c endId); [by eauto|].
  destruct (proj1 (is_key_lookup g c) Hkey) as [n Hn]. rewrite Hn.
  destruct (relax_all_inv (PathNode.connections n) _ c n Hinv1)
    as (st2 & -> & Hinv2 & Hu2); [|done|done|].
  { by apply (inv_reached _ _ _ Hinv c x). }
  simpl. apply IH; [done|]. rewrite Hu2. simpl.
  pose proof (Set_delete_length _ _ Hmin). lia.
Qed.

Lemma solve_inv (endId : string) :
  ∃ st, solve (enough_fuel g) g a endId = Done st ∧ search_inv g a st.
Proof.
  unfold solve. apply search_inv_run; [apply init_inv|]. simpl.
  pose proof (Set_of_length (Object_keys g)).
  rewrite Object_keys_length in *. unfold enough_fuel. lia.
Qed.
End Search.

(** ** More fuel does not change a result *)

Lemma search_fuel_mono (g : Graph) (endId : string) (n m : nat)
  (st st' : SearchState) :
  search n g endId st = Done st' → n ≤ m → search m g endId st = Done st'.
Proof.
  revert m st. induction n as [|n IH]; intros m st Hs Hle.
  - simpl in Hs. destruct (unvisited st) eqn:E; [|done].
    destruct m; simpl; by rewrite E.
  - destruct m as [|m]; [lia|].
    destruct (decide (unvisited st = [])) as [Hnil|Hne].
    { simpl in *. by rewrite Hnil in *. }
    rewrite search_S in Hs |- * by done.
    destruct (fst (find_min _ _)) as [c|]; [|done].
    destruct (_ || _); [done|]. cbn zeta in *.
    destruct (String.eqb c endId); [done|].
    destruct (lookup_node g c) as [nd|]; [|done].
    destruct (relax_all g c nd _ _) as [st2| |]; [|done..].
    rewrite bind_Done in *. apply IH; [done|lia].
Qed.

Lemma reconstruct_fuel_mono (p : gmap string (option string)) (n m : nat)
  (current : JS.value) (path path' : list JS.value) :
  reconstruct n p current path = Done path' → n ≤ m →
  reconstruct m p current path = Done path'.
Proof.
  revert m current path. induction n as [|n IH]; intros m current path Hr Hle.
  - destruct current; try done. by destruct m.
  - destruct m as [|m]; [lia|].
    destruct current; simpl in *; try done; apply IH; (done || lia).
Qed.

(** A call that returns on [n] units of fuel returns the same steps on
    any larger amount. *)
Lemma findPath_fuel_mono (g : Graph) (a b : string) (n m : nat)
  (steps : list PathStep.t) :
  findPath_fuel n g a b = Done steps → n ≤ m →
  findPath_fuel m g a b = Done steps.
Proof.
  unfold findPath_fuel, path_of, solve. intros H Hle.
  destruct (search n g b _) as [st| |] eqn:Hs; [|done..].
  rewrite (search_fuel_mono _ _ _ _ _ _ Hs Hle). rewrite bind_Done in *.
  destruct (reconstruct n _ _ _) as [path| |] eqn:Hr; [|done..].
  rewrite (reconstruct_fuel_mono _ _ _ _ _ _ Hr Hle). by rewrite bind_Done in *.
Qed.

(** ** Routes of a single waypoint *)

Lemma reconstruct_root (fuel : nat) (p : gmap string (option string))
  (k : string) (path : list JS.value) :
  p !! k = Some None →
  reconstruct (S fuel) p (JS.Str k) path = Done (JS.Str k :: path).
Proof.
  intros Hk. simpl. unfold previous_at. simpl. rewrite Hk. by destruct fuel.
Qed.

(** After the search, [previous[b]] is still [null] for a key [b] out
    of reach of [a]. *)
Lemma unreachable_previous_null (g : Graph) (a b : string) :
  is_key g b → ¬ reachable g a b →
  ∃ st, solve (enough_fuel g) g a b = Done st ∧ previous st !! b = Some None.
Proof.
  intros Hb Hnot. destruct (solve_inv g a b) as (st & Hsolve & Hinv).
  exists st. split; [done|].
  destruct (proj2 (inv_previous _ _ _ Hinv b) Hb) as [[q|] Hq]; [|done].
  destruct Hnot. by apply (inv_pred _ _ _ Hinv b q).
Qed.

Lemma search_same_waypoint (g : Graph) (w : string) :
  is_key g w →
  ∃ st, solve (enough_fuel g) g w w = Done st
        ∧ previous st = snd (init_maps (Object_keys g) w).
Proof.
  intros Hw. unfold solve, enough_fuel.
  assert (Hin : w ∈ JS.Set_of (Object_keys g)).
  { by apply elem_of_Set_of, elem_of_Object_keys. }
  rewrite search_S; cbn [distances previous unvisited].
  2: { intros E. rewrite E in Hin. by apply elem_of_nil in Hin. }
  rewrite (find_min_start _ _ w).
  2: { intros x Hx. unfold number_at. rewrite init_maps_distances.
       rewrite decide_True by (apply elem_of_Set_of; exact Hx). done. }
  2: exact Hin.
  cbn [fst]. unfold number_at. rewrite init_maps_distances.
  rewrite decide_True by (apply elem_of_Set_of; exact Hin).
  rewrite String.eqb_refl. cbn [default].
  replace (0 =? infinity)%float with false by reflexivity.
  rewrite orb_false_r. destruct (JS.falsy w); eauto.
Qed.

(** With an unknown [startId] no distance is below [Infinity]: the
    first scan finds no node and the loop ends in its initial state. *)
Lemma unknown_start_visits_nothing (g : Graph) (startId endId : string) :
  ¬ is_key g startId →
  solve (enough_fuel g) g startId endId
  = Done (mkState (fst (init_maps (Object_keys g) startId))
                  (snd (init_maps (Object_keys g) startId))
                  (JS.Set_of (Object_keys g))).
Proof.
  intros Ha. unfold solve, enough_fuel.
  destruct (decide (JS.Set_of (Object_keys g) = [])) as [Hnil|Hne].
  { simpl. by rewrite Hnil. }
  rewrite search_S by done. cbn [distances unvisited].
  rewrite find_min_none; [done|].
  intros x Hx. unfold number_at. rewrite init_maps_distances.
  rewrite elem_of_Set_of in Hx. rewrite decide_True by exact Hx.
  destruct (String.eqb_spec x startId) as [->|_]; [|reflexivity].
  destruct Ha. by apply elem_of_Object_keys.
Qed.

Lemma unknown_is_unreachable (g : Graph) (a b : string) :
  ¬ is_key g a → is_key g b → ¬ reachable g a b.
Proof.
  intros Ha Hb Hr. apply rtc_inv in Hr as [->|(y & (n & Hn & _) & _)].
  - done.
  - apply Ha, is_key_lookup. eauto.
Qed.

(** C1, amended.  When [startId] is not a key of the graph and [endId]
    is, the call returns normally with the empty step list: the unknown
    id is not reported, and the result is the one of a route from a
    waypoint to itself. *)
Theorem unknown_start_returns_empty_route (g : Graph)
  (startId endId : string) :
  ¬ is_key g startId → is_key g endId →
  findPath_on g startId endId = Done [].
Proof.
  intros Ha Hb.
  destruct (unreachable_previous_null g startId endId Hb) as (st & Hs & Hp).
  { by apply unknown_is_unreachable. }
  unfold findPath_on, findPath_fuel, path_of. rewrite Hs, bind_Done.
  unfold enough_fuel. by rewrite (reconstruct_root _ _ _ _ Hp).
Qed.

Lemma unknown_start_returns_empty_route_witness :
  ¬ is_key navigationNodes "UNKNOWN_ID" ∧ is_key navigationNodes "LIB"
  ∧ findPath_on navigationNodes "UNKNOWN_ID" "LIB" = Done [].
Proof.
  assert (H1 : ¬ is_key navigationNodes "UNKNOWN_ID") by by_evaluation.
  assert (H2 : is_key navigationNodes "LIB") by by_evaluation.
  split; [exact H1|]. split; [exact H2|].
  exact (unknown_start_returns_empty_route navigationNodes _ _ H1 H2).
Defined.

(** C1, as stated, fails on the shipped graph: [findPath('UNKNOWN_ID',
    'LIB')] returns the empty list, as [findPath('LIB', 'LIB')] does. *)
Lemma unknown_start_is_not_reported :
  ¬ is_key navigationNodes "UNKNOWN_ID"
  ∧ findPath "UNKNOWN_ID" "LIB" = Done []
  ∧ findPath "LIB" "LIB" = Done [].
Proof. split; [by_evaluation|]. split; vm_compute; reflexivity. Qed.

(** C2, amended.  For two keys of the graph with [endId] out of reach
    of [startId], the call ends and returns the empty step list: no
    endless loop, no [null] in the result, and no failure value
    either. *)
Theorem unreachable_returns_empty_route (g : Graph) (startId endId : string) :
  is_key g startId → is_key g endId → ¬ reachable g startId endId →
  findPath_on g startId endId = Done [].
Proof.
  intros _ Hb Hnot.
  destruct (unreachable_previous_null g startId endId Hb Hnot)
    as (st & Hs & Hp).
  unfold findPath_on, findPath_fuel, path_of. rewrite Hs, bind_Done.
  unfold enough_fuel. rewrite (reconstruct_root _ _ _ _ Hp).
  rewrite bind_Done. reflexivity.
Qed.

Lemma two_islands_apart : ¬ reachable two_islands "A" "B".
Proof.
  intros Hr. apply rtc_inv in Hr as [Heq|(y & (n & Hn & Hy & _) & _)].
  - discriminate Heq.
  - vm_compute in Hn. inversion Hn; subst n. simpl in Hy.
    by apply elem_of_nil in Hy.
Qed.

Lemma unreachable_returns_empty_route_witness :
  is_key two_islands "A" ∧ is_key two_islands "B"
  ∧ ¬ reachable two_islands "A" "B"
  ∧ findPath_on two_islands "A" "B" = Done [].
Proof.
  assert (H1 : is_key two_islands "A") by by_evaluation.
  assert (H2 : is_key two_islands "B") by by_evaluation.
  split; [exact H1|]. split; [exact H2|]. split; [exact two_islands_apart|].
  exact (unreachable_returns_empty_route two_islands "A" "B" H1 H2
           two_islands_apart).
Defined.

(** C2, as stated, fails on a record of two unconnected nodes: the call
    returns the empty list, the value it also returns for a route from
    a waypoint to itself. *)
Lemma no_path_is_not_reported :
  is_key two_islands "A" ∧ is_key two_islands "B"
  ∧ ¬ reachable two_islands "A" "B"
  ∧ findPath_on two_islands "A" "B" = Done []
  ∧ findPath_on two_islands "A" "A" = Done [].
Proof.
  split; [by_evaluation|]. split; [by_evaluation|].
  split; [exact two_islands_apart|]. split; vm_compute; reflexivity.
Qed.

(** C7.  For a key [w] of the graph the predecessor walk of
    [findPath(w, w)] yields the one-node path [[w]] and the call returns
    the empty step list. *)
Theorem same_waypoint_returns_empty_route (g : Graph) (w : string) :
  is_key g w →
  path_of (enough_fuel g) g w w = Done [JS.Str w]
  ∧ findPath_on g w w = Done [].
Proof.
  intros Hw. unfold findPath_on, findPath_fuel, path_of.
  destruct (search_same_waypoint g w Hw) as (st & -> & Hp).
  rewrite bind_Done, Hp. unfold enough_fuel.
  rewrite reconstruct_root; [done|].
  rewrite init_maps_previous. rewrite decide_True; [done|].
  by apply elem_of_Object_keys.
Qed.

Lemma same_waypoint_returns_empty_route_witness :
  is_key navigationNodes "LIB"
  ∧ path_of (enough_fuel navigationNodes) navigationNodes "LIB" "LIB"
    = Done [JS.Str "LIB"]
  ∧ findPath_on navigationNodes "LIB" "LIB" = Done [].
Proof.
  assert (H : is_key navigationNodes "LIB") by by_evaluation.
  split; [exact H|].
  exact (same_waypoint_returns_empty_route navigationNodes "LIB" H).
Defined.

(** ** An unknown [endId] *)

Lemma reconstruct_undefined (p : gmap string (option string)) (fuel : nat)
  (path : list JS.value) :
  p !! "undefined" = None →
  reconstruct fuel p JS.Undefined path = OutOfFuel.
Proof.
  intros Hu. revert path. induction fuel as [|fuel IH]; intros path; [done|].
  simpl. unfold previous_at. simpl. rewrite Hu. apply IH.
Qed.

Lemma reconstruct_unknown (p : gmap string (option string)) (fuel : nat)
  (b : string) (path : list JS.value) :
  p !! b = None → p !! "undefined" = None →
  reconstruct fuel p (JS.Str b) path = OutOfFuel.
Proof.
  intros Hb Hu. destruct fuel as [|fuel]; [done|].
  simpl. unfold previous_at. simpl. rewrite Hb.
  by apply reconstruct_undefined.
Qed.

Lemma search_inv_any_fuel (g : Graph) (a endId : string) (fuel : nat)
  (st : SearchState) :
  search_inv g a st →
  search fuel g endId st = OutOfFuel
  ∨ ∃ st', search fuel g endId st = Done st' ∧ search_inv g a st'.
Proof.
  revert st. induction fuel as [|fuel IH]; intros st Hinv.
  - simpl. destruct (unvisited st); [right; eauto|by left].
  - destruct (decide (unvisited st = [])) as [Hnil|Hne].
    { right. exists st. split; [|done]. simpl. by rewrite Hnil. }
    rewrite search_S by done.
    destruct (fst (find_min (distances st) (unvisited st))) as [c|] eqn:Hmin;
      [|right; by eauto].
    apply find_min_elem in Hmin.
    assert (Hkey : is_key g c) by (by apply (inv_unvisited _ _ _ Hinv)).
    destruct (inv_distances _ _ _ Hinv c Hkey) as [x Hx].
    unfold number_at. rewrite Hx. simpl.
    destruct (JS.falsy c); simpl; [right; by eauto|].
    destruct (x =? infinity)%float eqn:Hfin; [right; by eauto|].
    pose proof (delete_inv g a st c Hinv) as Hinv1.
    destruct (String.eqb c endId); [right; by eauto|].
    destruct (proj1 (is_key_lookup g c) Hkey) as [n Hn]. rewrite Hn.
    destruct (relax_all_inv g a (PathNode.connections n) _ c n Hinv1)
      as (st2 & -> & Hinv2 & Hu2); [|done|done|].
    { by apply (inv_reached _ _ _ Hinv c x). }
    rewrite bind_Done. by apply IH.
Qed.

(** For an [endId] that is not a key, the predecessor walk reads
    [undefined] for ever: whatever the fuel, the call does not
    return. *)
Lemma unknown_end_never_returns (g : Graph) (startId endId : string)
  (fuel : nat) :
  ¬ is_key g endId → ¬ is_key g "undefined" →
  findPath_fuel fuel g startId endId = OutOfFuel.
Proof.
  intros Hb Hu. unfold findPath_fuel, path_of, solve.
  destruct (search_inv_any_fuel g startId endId fuel _ (init_inv g startId))
    as [->|(st & -> & Hinv)]; [done|].
  rewrite bind_Done.
  assert (Hnone : ∀ k, ¬ is_key g k → previous st !! k = None).
  { intros k Hk. destruct (previous st !! k) eqn:E; [|done].
    destruct Hk. apply (inv_previous _ _ _ Hinv). eauto. }
  by rewrite reconstruct_unknown by auto.
Qed.

Lemma unknown_end_on_the_shipped_graph (fuel : nat) :
  findPath_fuel fuel navigationNodes "ENTRANCE" "UNKNOWN_ID" = OutOfFuel.
Proof. apply unknown_end_never_returns; by_evaluation. Qed.

(** ** The synthesis, step by step *)

(** [steps_of] emits one step per consecutive pair of the path; the
    step of a pair carries the ids of the two nodes. *)
Lemma steps_of_pairs (g : Graph) (path : list JS.value)
  (steps : list PathStep.t) :
  steps_of g path = Done steps →
  length steps = pred (length path)
  ∧ ∀ i s, steps !! i = Some s →
      ∃ x y n m,
        path !! i = Some x ∧ path !! S i = Some y
        ∧ lookup_node g (JS.to_key x) = Some n
        ∧ lookup_node g (JS.to_key y) = Some m
        ∧ PathStep.from s = PathNode.id n ∧ PathStep.to s = PathNode.id m
        ∧ PathStep.floor s = PathNode.floor m.
Proof.
  revert steps. induction path as [|x [|y path] IH]; intros steps Hs.
  - inversion Hs. by split.
  - inversion Hs. by split.
  - change (steps_of g (x :: y :: path))
      with (s ← make_step g x y; ss ← steps_of g (y :: path); Done (s :: ss))
      in Hs.
    unfold make_step in Hs.
    destruct (lookup_node g (JS.to_key x)) as [n|] eqn:Hn; [|done].
    destruct (lookup_node g (JS.to_key y)) as [m|] eqn:Hm; [|done].
    destruct (instruction_of n m _) as [text change].
    rewrite bind_Done in Hs.
    destruct (steps_of g (y :: path)) as [ss| |] eqn:Hss; [|done..].
    rewrite bind_Done in Hs. inversion Hs; subst steps. clear Hs.
    destruct (IH ss eq_refl) as [Hlen Hpairs]. split.
    + simpl in *. by rewrite Hlen.
    + intros [|i] s Hi.
      * inversion Hi; subst s. exists x, y, n, m. by simpl.
      * destruct (Hpairs i s Hi) as (x' & y' & n' & m' & H).
        exists x', y', n', m'. exact H.
Qed.

(** ** The predecessor chains *)

Lemma ancestry_last (p : gmap string (option string)) (k : string)
  (path : list string) :
  ancestry p k path → last path = Some k.
Proof. intros [|]; [done|]. by rewrite last_snoc. Qed.

Lemma ancestry_single (p : gmap string (option string)) (k x : string) :
  ancestry p k [x] → x = k ∧ p !! k = Some None.
Proof.
  intros H. inversion H as [k' Hk|k' q path Hk Hq Heq]; subst; [done|].
  apply ancestry_last in Hq. destruct path; [done|].
  by destruct path.
Qed.

Lemma ancestry_insert (p : gmap string (option string)) (nb k : string)
  (v : option string) (path : list string) :
  ancestry p k path → nb ∉ path → ancestry (<[nb := v]> p) k path.
Proof.
  induction 1 as [k Hk|k q path Hk Hq IH]; intros Hnb.
  - apply ancestry_root. rewrite lookup_insert_ne; [done|].
    intros ->. apply Hnb. by left.
  - apply ancestry_step with q.
    + rewrite lookup_insert_ne; [done|].
      intros ->. apply Hnb. apply elem_of_app. right. by left.
    + apply IH. intros Hin. apply Hnb. apply elem_of_app. by left.
Qed.

Lemma linked_snoc (g : Graph) (path : list string) (u v : string) :
  linked g path → last path = Some u → edge g u v → linked g (path ++ [v]).
Proof.
  induction path as [|x [|y path] IH]; intros Hl Hlast He; [done| |].
  - simpl in *. inversion Hlast; subst. done.
  - destruct Hl as [Hxy Hl]. split; [done|]. by apply IH.
Qed.

Lemma reconstruct_ancestry (p : gmap string (option string)) (k : string)
  (path : list string) :
  ancestry p k path →
  ∀ fuel acc, length path ≤ fuel →
    reconstruct fuel p (JS.Str k) acc = Done ((JS.Str <$> path) ++ acc).
Proof.
  induction 1 as [k Hk|k q path Hk Hq IH]; intros fuel acc Hfuel.
  - destruct fuel as [|fuel]; [simpl in Hfuel; lia|].
    by rewrite reconstruct_root.
  - rewrite length_app in Hfuel. simpl in Hfuel.
    destruct fuel as [|fuel]; [lia|].
    simpl. unfold previous_at. simpl. rewrite Hk.
    rewrite IH by lia. by rewrite fmap_app, <- app_assoc.
Qed.

Lemma steps_of_keys (g : Graph) (path : list string) :
  (∀ x, x ∈ path → is_key g x) →
  ∃ steps, steps_of g (JS.Str <$> path) = Done steps.
Proof.
  induction path as [|x [|y path] IH]; intros Hkeys; [by eauto..|].
  change (steps_of g (JS.Str <$> x :: y :: path))
    with (s ← make_step g (JS.Str x) (JS.Str y);
          ss ← steps_of g (JS.Str <$> y :: path); Done (s :: ss)).
  unfold make_step. cbn [JS.to_key].
  destruct (proj1 (is_key_lookup g x)) as [n ->]; [apply Hkeys; by left|].
  destruct (proj1 (is_key_lookup g y)) as [m ->];
    [apply Hkeys; right; by left|].
  destruct (instruction_of n m _) as [text change]. rewrite bind_Done.
  destruct IH as [ss Hss]; [intros z Hz; apply Hkeys; by right|].
  rewrite Hss, bind_Done. eauto.
Qed.

Lemma distinct_keys_length (g : Graph) (path : list string) :
  NoDup path → (∀ x, x ∈ path → is_key g x) → length path ≤ length g.
Proof.
  intros Hnd Hkeys. rewrite <- (length_map fst g).
  apply submseteq_length, NoDup_submseteq; done.
Qed.

Section Chains.
Context (g : Graph) (a : string).

Lemma init_chain :
  chain_inv g a
    (mkState (fst (init_maps (Object_keys g) a))
             (snd (init_maps (Object_keys g) a))
             (JS.Set_of (Object_keys g))).
Proof.
  split; simpl.
  - intros k Hk. exists [k]. split_and!.
    + apply ancestry_root. rewrite init_maps_previous.
      rewrite decide_True; [done|]. by apply elem_of_Object_keys.
    + apply NoDup_singleton.
    + intros x Hx Hne. apply list_elem_of_singleton in Hx. done.
    + intros x Hx. apply list_elem_of_singleton in Hx. by subst.
    + done.
    + by left.
  - intros k x. rewrite init_maps_distances. case_decide; [|done].
    destruct (String.eqb_spec k a) as [->|_]; intros Hx Hfin; [by left|].
    inversion Hx; subst x. discriminate Hfin.
  - intros _ k q. rewrite init_maps_previous. by case_decide.
Qed.

Lemma relax_chain (st st' : SearchState) (cur : string) (n : PathNode.t)
  (nb : string) (x : float) :
  search_inv g a st → chain_inv g a st →
  is_key g cur → cur ∉ unvisited st → a ∉ unvisited st →
  distances st !! cur = Some x → (x =? infinity)%float = false →
  lookup_node g cur = Some n → nb ∈ PathNode.connections n →
  relax g cur n st nb = Done st' →
  chain_inv g a st'.
Proof.
  intros Hinv Hch Hcur Hvis Ha Hx Hfin Hn Hnb. unfold relax.
  destruct (JS.Set_has (unvisited st) nb) eqn:Hhas; simpl;
    [|by intros [= <-]].
  apply Set_has_true in Hhas.
  assert (Hkey : is_key g nb) by (by apply (inv_unvisited _ _ _ Hinv)).
  destruct (proj1 (is_key_lookup g nb) Hkey) as [nbn ->].
  destruct (_ <? _)%float; [|by intros [= <-]].
  intros [= <-].
  destruct (chain_paths _ _ _ Hch cur Hcur)
    as (pc & Hanc & Hnd & Hset & Hkeys & Hlink & Hhead).
  assert (Hnbpc : nb ∉ pc).
  { intros Hin. destruct (decide (nb = cur)) as [->|Hne]; [done|].
    by apply (Hset nb Hin Hne). }
  split; simpl.
  - intros k Hk. destruct (decide (k = nb)) as [->|Hne].
    + exists (pc ++ [nb]). split_and!.
      * apply ancestry_step with cur; [by rewrite lookup_insert_eq|].
        by apply ancestry_insert.
      * apply NoDup_app. split; [done|]. split; [|apply NoDup_singleton].
        intros y Hy Hy'. apply list_elem_of_singleton in Hy'. by subst.
      * intros y Hy Hne. apply elem_of_app in Hy as [Hy|Hy].
        -- destruct (decide (y = cur)) as [->|Hne']; [done|].
           by apply Hset.
        -- apply list_elem_of_singleton in Hy. done.
      * intros y Hy. apply elem_of_app in Hy as [Hy|Hy]; [by apply Hkeys|].
        apply list_elem_of_singleton in Hy. by subst.
      * apply linked_snoc with cur; [done|by eapply ancestry_last|].
        exists n. done.
      * right. destruct Hhead as [->|Hhead].
        -- simpl. apply ancestry_single in Hanc as [_ Hroot].
           destruct (chain_finite _ _ _ Hch cur x Hx Hfin) as [->|[q Hq]];
             [done|congruence].
        -- destruct pc; [done|]. done.
    + destruct (chain_paths _ _ _ Hch k Hk)
        as (pk & Hanck & Hndk & Hsetk & Hkeysk & Hlinkk & Hheadk).
      exists pk. split_and!; try done.
      apply ancestry_insert; [done|].
      intros Hin. by apply (Hsetk nb Hin).
  - intros k y. destruct (decide (nb = k)) as [->|Hne].
    + intros _ _. right. exists cur. by rewrite lookup_insert_eq.
    + rewrite !lookup_insert_ne by done. apply (chain_finite _ _ _ Hch).
  - done.
Qed.

Lemma relax_all_chain (cs : list string) (st st' : SearchState)
  (cur : string) (n : PathNode.t) (x : float) :
  search_inv g a st → chain_inv g a st →
  reachable g a cur →
  is_key g cur → cur ∉ unvisited st → a ∉ unvisited st →
  distances st !! cur = Some x → (x =? infinity)%float = false →
  lookup_node g cur = Some n →
  (∀ c, c ∈ cs → c ∈ PathNode.connections n) →
  relax_all g cur n st cs = Done st' →
  chain_inv g a st'.
Proof.
  revert st. induction cs as [|c cs IH];
    intros st Hinv Hch Hreach Hcur Hvis Ha Hx Hfin Hn Hcs; simpl.
  - by intros [= <-].
  - destruct (relax_inv g a st cur n c Hinv Hreach Hn)
      as (st1 & Hst1 & Hinv1 & Hu1); [apply Hcs; by left|].
    rewrite Hst1, bind_Done.
    assert (Hch1 : chain_inv g a st1).
    { apply (relax_chain st st1 cur n c x); try done. apply Hcs. by left. }
    assert (Hx1 : distances st1 !! cur = Some x).
    { revert Hst1. unfold relax.
      destruct (JS.Set_has (unvisited st) c) eqn:Hhas; simpl;
        [|by intros [= <-]].
      destruct (lookup_node g c); [|done].
      destruct (_ <? _)%float; [|by intros [= <-]].
      intros [= <-]. simpl. rewrite lookup_insert_ne; [done|].
      intros ->. apply Set_has_true in Hhas. done. }
    apply IH; try done; try (by rewrite Hu1).
    intros c' Hc'. apply Hcs. by right.
Qed.

Lemma delete_chain (st : SearchState) (c : string) :
  chain_inv g a st →
  chain_inv g a
    (mkState (distances st) (previous st) (JS.Set_delete (unvisited st) c)).
Proof.
  intros Hch. split; simpl.
  - intros k Hk.
    destruct (chain_paths _ _ _ Hch k Hk)
      as (pk & Hanc & Hnd & Hset & Hkeys & Hlink & Hhead).
    exists pk. split_and!; try done.
    intros y Hy Hne Hin. apply elem_of_Set_delete in Hin as [Hin _].
    by apply (Hset y).
  - apply (chain_finite _ _ _ Hch).
  - intros Hin. apply elem_of_Set_delete in Hin as [Hin _].
    by apply (chain_start _ _ _ Hch).
Qed.

Lemma search_chain (endId : string) (fuel : nat) (st st' : SearchState) :
  search_inv g a st → chain_inv g a st →
  search fuel g endId st = Done st' →
  chain_inv g a st'.
Proof.
  revert st. induction fuel as [|fuel IH]; intros st Hinv Hch.
  { simpl. destruct (unvisited st); [by intros [= <-]|done]. }
  destruct (decide (unvisited st = [])) as [Hnil|Hne].
  { simpl. rewrite Hnil. by intros [= <-]. }
  rewrite search_S by done.
  destruct (fst (find_min (distances st) (unvisited st))) as [c|] eqn:Hmin;
    [|by intros [= <-]].
  apply find_min_elem in Hmin.
  assert (Hkey : is_key g c) by (by apply (inv_unvisited _ _ _ Hinv)).
  destruct (inv_distances _ _ _ Hinv c Hkey) as [x Hx].
  unfold number_at. rewrite Hx. simpl.
  destruct (JS.falsy c); simpl; [by intros [= <-]|].
  destruct (x =? infinity)%float eqn:Hfin; [by intros [= <-]|].
  pose proof (delete_inv g a st c Hinv) as Hinv1.
  pose proof (delete_chain st c Hch) as Hch1.
  destruct (String.eqb c endId); [by intros [= <-]|].
  destruct (proj1 (is_key_lookup g c) Hkey) as [n Hn]. rewrite Hn.
  assert (Hreach : reachable g a c).
  { by apply (inv_reached _ _ _ Hinv c x). }
  destruct (relax_all_inv g a (PathNode.connections n) _ c n Hinv1 Hreach Hn)
    as (st2 & Hst2 & Hinv2 & Hu2); [done|].
  rewrite Hst2, bind_Done. apply IH; [done|].
  eapply relax_all_chain; try exact Hst2; try done; simpl.
  - intros Hin. apply elem_of_Set_delete in Hin as [_ ?]. done.
  - intros Hin. apply elem_of_Set_delete in Hin as [Hin Hac].
    destruct (chain_finite _ _ _ Hch c x Hx Hfin) as [->|[q Hq]]; [done|].
    by apply (chain_start _ _ _ Hch Hin c q).
Qed.
End Chains.

(** For an [endId] that is a key the call returns: the search ends,
    the predecessor walk yields either [[endId]] alone or a list of
    distinct linked nodes from [startId] to [endId], and the synthesis
    makes one step per pair of it. *)
Lemma findPath_returns (g : Graph) (startId endId : string) :
  is_key g endId →
  ∃ path steps,
    path_of (enough_fuel g) g startId endId = Done (JS.Str <$> path)
    ∧ findPath_on g startId endId = Done steps
    ∧ last path = Some endId
    ∧ (path = [endId] ∨ head path = Some startId)
    ∧ NoDup path ∧ linked g path
    ∧ length steps = pred (length path).
Proof.
  intros Hb. unfold findPath_on, findPath_fuel, path_of.
  destruct (solve_inv g startId endId) as (st & Hsolve & Hinv).
  assert (Hch : chain_inv g startId st).
  { unfold solve in Hsolve.
    eapply search_chain; [apply init_inv|apply init_chain|exact Hsolve]. }
  destruct (chain_paths _ _ _ Hch endId Hb)
    as (path & Hanc & Hnd & _ & Hkeys & Hlink & Hhead).
  destruct (steps_of_keys g path Hkeys) as [steps Hsteps].
  exists path, steps. rewrite Hsolve, bind_Done.
  rewrite (reconstruct_ancestry _ _ _ Hanc).
  2: { pose proof (distinct_keys_length g path Hnd Hkeys).
       unfold enough_fuel. lia. }
  rewrite app_nil_r, bind_Done. split_and!; try done.
  - by eapply ancestry_last.
  - apply steps_of_pairs in Hsteps as [Hlen _].
    by rewrite length_fmap in Hlen.
Qed.

Lemma chained_lookup (steps : list PathStep.t) :
  (∀ i s t, steps !! i = Some s → steps !! S i = Some t →
            PathStep.to s = PathStep.from t) →
  chained steps.
Proof.
  induction steps as [|s [|t steps] IH]; intros H; [done..|].
  split; [by apply (H 0)|]. apply IH.
  intros i s' t' Hs' Ht'. by apply (H (S i)).
Qed.

(** Over a record whose nodes carry their key as [id], the steps that a
    call returns for a key [endId] chain, and unless the list is empty
    they lead from [startId] to [endId]. *)
Lemma findPath_route_shape (g : Graph) (startId endId : string) :
  is_key g endId →
  (∀ k n, lookup_node g k = Some n → PathNode.id n = k) →
  ∃ steps,
    findPath_on g startId endId = Done steps
    ∧ chained steps
    ∧ (steps = []
       ∨ (PathStep.from <$> head steps = Some startId
          ∧ PathStep.to <$> last steps = Some endId)).
Proof.
  intros Hb Hid.
  destruct (findPath_returns g startId endId Hb)
    as (path & steps & Hpath & Hsteps & Hlast & Hhead & _ & _ & Hlen).
  exists steps. split; [done|].
  assert (Hof : steps_of g (JS.Str <$> path) = Done steps).
  { revert Hsteps. unfold findPath_on, findPath_fuel.
    by rewrite Hpath, bind_Done. }
  apply steps_of_pairs in Hof as [_ Hpairs].
  assert (Hends : ∀ i s, steps !! i = Some s →
            path !! i = Some (PathStep.from s)
            ∧ path !! S i = Some (PathStep.to s)).
  { intros i s Hi.
    destruct (Hpairs i s Hi) as (x & y & n & m & Hx & Hy & Hn & Hm & Hf & Ht & _).
    rewrite list_lookup_fmap in Hx, Hy.
    destruct (path !! i) as [u|]; [|done].
    destruct (path !! S i) as [v|]; [|done].
    simpl in Hx, Hy. inversion Hx; inversion Hy; subst x y. simpl in Hn, Hm.
    by rewrite Hf, Ht, (Hid u n Hn), (Hid v m Hm). }
  split.
  - apply chained_lookup. intros i s t Hs Ht.
    destruct (Hends i s Hs) as [_ H1]. destruct (Hends (S i) t Ht) as [H2 _].
    congruence.
  - destruct steps as [|s0 steps]; [by left|]. right.
    destruct Hhead as [->|Hhead]; [simpl in Hlen; lia|]. split.
    + destruct (Hends 0 s0 eq_refl) as [H0 _]. simpl.
      rewrite <- head_lookup in H0. congruence.
    + rewrite last_lookup in Hlast. rewrite last_lookup.
      cbn [length Nat.pred] in Hlen |- *.
      destruct (lookup_lt_is_Some_2 (s0 :: steps) (length steps)) as [s Hs];
        [simpl; lia|].
      rewrite Hs. simpl. destruct (Hends _ s Hs) as [_ H1].
      rewrite Hlen in H1. congruence.
Qed.

(** ** The stairs branch *)

(** A step into a stairs node that does not go up is labelled [down],
    also when both ends are on the same floor. *)
Lemma stairs_floorChange_is_always_set (fromNode toNode : PathNode.t)
  (direction : string) :
  PathNode.type toNode = stairs →
  snd (instruction_of fromNode toNode direction)
  = Some (if (PathNode.floor toNode >? PathNode.floor fromNode)%Z
          then up else down).
Proof.
  intros Ht. unfold instruction_of. rewrite Ht.
  by destruct (_ >? _)%Z.
Qed.

(** C3, at the failing input.  On the route from the entrance to room
    A233 the second step goes from HALL1_1 to STAIRS1, both on floor 1,
    and carries [floorChange = 'down']. *)
Theorem stairs_on_same_floor_has_floorChange :
  ∃ s1 s2 rest n1 n2,
    findPath "ENTRANCE" "A233" = Done (s1 :: s2 :: rest)
    ∧ PathStep.from s2 = "HALL1_1" ∧ PathStep.to s2 = "STAIRS1"
    ∧ lookup_node navigationNodes "HALL1_1" = Some n1
    ∧ lookup_node navigationNodes "STAIRS1" = Some n2
    ∧ PathNode.type n2 = stairs
    ∧ PathNode.floor n1 = PathNode.floor n2
    ∧ PathStep.floorChange s2 = Some down
    ∧ PathStep.instruction s2 = "Take the stairs down to floor 1".
Proof.
  do 5 eexists. split; [vm_compute; reflexivity|].
  repeat split; vm_compute; reflexivity.
Qed.

(** C4, at its input.  The route from the entrance to the library ends
    at LIB, its floors never decrease and start on the entrance's floor,
    and two of its steps have [floorChange] set: the step into STAIRS1
    ('down', on floor 1) and the step from STAIRS1 to STAIRS2 ('up'). *)
Theorem entrance_to_library_route :
  ∃ steps,
    findPath "ENTRANCE" "LIB" = Done steps
    ∧ PathStep.to <$> last steps = Some "LIB"
    ∧ map PathStep.floor steps = [1; 1; 2; 2; 2; 2]%Z
    ∧ nondecreasing (map PathStep.floor steps)
    ∧ waypoints steps
      = ["ENTRANCE"; "HALL1_1"; "STAIRS1"; "STAIRS2"; "HALL2_1"; "HALL2_2";
         "LIB"]
    ∧ floorChanges steps = [None; Some down; Some up; None; None; None]
    ∧ transitions steps = 2.
Proof.
  eexists. split; [vm_compute; reflexivity|].
  repeat split; vm_compute; try reflexivity; congruence.
Qed.

(** ** Every pair of the shipped graph is connected *)

Lemma linked_reachable (g : Graph) (q : list string) (a b : string) :
  head q = Some a → last q = Some b → linked g q → reachable g a b.
Proof.
  revert a. induction q as [|u [|v rest] IH]; intros a Hh Hl Hq; [done| |].
  - simpl in *. inversion Hh; inversion Hl; subst. apply rtc_refl.
  - destruct Hq as [He Hq]. simpl in Hh. inversion Hh; subst u.
    eapply rtc_l; [exact He|]. by apply IH.
Qed.

Lemma all_tree_routes_ok :
  Forall (fun a => tree_routes_ok navigationNodes a
                     (certificate navigationNodes a))
         (map fst navigationNodes).
Proof. by_evaluation. Qed.

Lemma tree_routes_reachable (g : Graph) (a b : string) (c : Certificate) :
  tree_routes_ok g a c → is_key g b → reachable g a b.
Proof.
  unfold tree_routes_ok. rewrite Forall_forall. intros H Hb.
  destruct (H b Hb) as (Hh & Hl & Hq). by eapply linked_reachable.
Qed.

Lemma all_pairs_connected (a b : string) :
  is_key navigationNodes a → is_key navigationNodes b →
  reachable navigationNodes a b.
Proof.
  intros Ha Hb. pose proof all_tree_routes_ok as H.
  rewrite Forall_forall in H.
  exact (tree_routes_reachable _ a b _ (H a Ha) Hb).
Qed.

(** ** Routes between distinct waypoints of the shipped graph *)

Lemma all_routes_good :
  Forall (fun a => Forall (fun b => a = b ∨ good_route navigationNodes a b)
                          (map fst navigationNodes))
         (map fst navigationNodes).
Proof. by_evaluation. Qed.

Lemma waypoints_lookup (steps : list PathStep.t) (i : nat) (s : PathStep.t) :
  chained steps → steps !! i = Some s →
  waypoints steps !! i = Some (PathStep.from s)
  ∧ waypoints steps !! S i = Some (PathStep.to s).
Proof.
  revert i. induction steps as [|s0 steps IH]; intros i Hch Hi; [done|].
  destruct i as [|i]; simpl in *.
  - by inversion Hi.
  - destruct steps as [|s1 steps]; [done|]. destruct Hch as [Heq Hch].
    destruct (IH i Hch Hi) as [H1 H2]. simpl in *. split; [|done].
    destruct i; simpl in *; [|done]. rewrite Heq. done.
Qed.

Lemma good_route_elim (g : Graph) (a b : string) :
  good_route g a b →
  ∃ steps,
    findPath_on g a b = Done steps
    ∧ path_of (enough_fuel g) g a b = Done (JS.Str <$> waypoints steps)
    ∧ steps ≠ []
    ∧ S (length steps) = length (waypoints steps)
    ∧ PathStep.from <$> head steps = Some a
    ∧ PathStep.to <$> last steps = Some b
    ∧ chained steps.
Proof.
  unfold good_route.
  destruct (findPath_on g a b) as [steps| |]; [|done..].
  intros H. by exists steps.
Qed.

(** C6.  For two distinct connected waypoints [a] and [b] of the
    shipped graph, [findPath(a, b)] returns a non-empty list with one
    step per consecutive pair of waypoints of the reconstructed path;
    the first step starts at [a], the last one ends at [b], and every
    step starts where the step before it ends. *)
Theorem connected_pair_has_a_chained_route (a b : string) :
  is_key navigationNodes a → is_key navigationNodes b →
  reachable navigationNodes a b → a ≠ b →
  ∃ path steps,
    path_of (enough_fuel navigationNodes) navigationNodes a b
      = Done (JS.Str <$> path)
    ∧ findPath a b = Done steps
    ∧ steps ≠ []
    ∧ length path = S (length steps)
    ∧ (∀ i s, steps !! i = Some s →
         path !! i = Some (PathStep.from s)
         ∧ path !! S i = Some (PathStep.to s))
    ∧ PathStep.from <$> head steps = Some a
    ∧ PathStep.to <$> last steps = Some b
    ∧ chained steps.
Proof.
  intros Ha Hb _ Hne.
  pose proof all_routes_good as H.
  rewrite Forall_forall in H. specialize (H a Ha).
  rewrite Forall_forall in H. destruct (H b Hb) as [?|Hgood]; [done|].
  apply good_route_elim in Hgood
    as (steps & Hsteps & Hpath & Hne' & Hlen & Hhead & Hlast & Hch).
  exists (waypoints steps), steps.
  split; [exact Hpath|]. split; [exact Hsteps|]. split; [exact Hne'|].
  split; [symmetry; exact Hlen|]. split.
  { intros i s Hi. apply waypoints_lookup; assumption. }
  split; [exact Hhead|]. split; [exact Hlast|exact Hch].
Qed.

Lemma entrance_reaches_library : reachable navigationNodes "ENTRANCE" "LIB".
Proof.
  apply (rtc_l _ _ "HALL1_1"); [by_evaluation|].
  apply (rtc_l _ _ "STAIRS1"); [by_evaluation|].
  apply (rtc_l _ _ "STAIRS2"); [by_evaluation|].
  apply (rtc_l _ _ "HALL2_1"); [by_evaluation|].
  apply (rtc_l _ _ "HALL2_2"); [by_evaluation|].
  apply rtc_once. by_evaluation.
Qed.

Lemma connected_pair_has_a_chained_route_witness :
  ∃ path steps,
    path_of (enough_fuel navigationNodes) navigationNodes "ENTRANCE" "LIB"
      = Done (JS.Str <$> path)
    ∧ findPath "ENTRANCE" "LIB" = Done steps
    ∧ steps ≠ []
    ∧ length path = S (length steps)
    ∧ (∀ i s, steps !! i = Some s →
         path !! i = Some (PathStep.from s)
         ∧ path !! S i = Some (PathStep.to s))
    ∧ PathStep.from <$> head steps = Some "ENTRANCE"
    ∧ PathStep.to <$> last steps = Some "LIB"
    ∧ chained steps.
Proof.
  apply (connected_pair_has_a_chained_route "ENTRANCE" "LIB").
  - by_evaluation.
  - by_evaluation.
  - exact entrance_reaches_library.
  - by_evaluation.
Defined.

(** ** The routes of the shipped graph against every other walk *)

Lemma lookup_node_elem (g : Graph) (k : string) (n : PathNode.t) :
  lookup_node g k = Some n → (k, n) ∈ g.
Proof.
  unfold lookup_node. intros H.
  destruct (find _ g) as [[k' n']|] eqn:Hfind; [|done].
  simpl in H. inversion H; subst n'.
  apply find_some in Hfind as [Hin Heq]. simpl in Heq.
  apply String.eqb_eq in Heq. subst k'. by apply list_elem_of_In.
Qed.

Lemma edge_in_edges_of (g : Graph) (u v : string) :
  edge g u v → (u, v) ∈ edges_of g.
Proof.
  intros (n & Hn & Hv & Hkey). unfold edges_of.
  apply list_elem_of_In, in_flat_map. exists (u, n). split.
  - by apply list_elem_of_In, lookup_node_elem.
  - simpl. apply in_map, filter_In. split; [by apply list_elem_of_In|].
    by apply bool_decide_eq_true.
Qed.

Lemma walk_last (g : Graph) (a : string) (q : list string) (u : string) :
  walk g a q u → last q = Some u.
Proof. intros [|]; [done|]. by rewrite last_snoc. Qed.

Lemma walk_length_snoc (g : Graph) (q : list string) (u v : string) :
  last q = Some u →
  walk_length g (q ++ [v]) = (walk_length g q + edge_length g u v)%Z.
Proof.
  induction q as [|x [|y q] IH]; intros Hlast; [done| |].
  - simpl in *. inversion Hlast. lia.
  - change (walk_length g ((x :: y :: q) ++ [v]))
      with (edge_length g x y + walk_length g ((y :: q) ++ [v]))%Z.
    rewrite IH by done. simpl. lia.
Qed.

(** A walk from [a] is the route of the certificate, or at least as
    long as the bound of the certificate. *)
Lemma walk_bound (g : Graph) (a : string) (c : Certificate)
  (q : list string) (v : string) :
  certificate_ok g a c → walk g a q v →
  q = tree_at (cert_tree c) v
  ∨ (bound_at (cert_next c) v <= walk_length g q)%Z.
Proof.
  intros (Hroot & Hedges & _) Hwalk. rewrite Forall_forall in Hedges.
  induction Hwalk as [Ha|q u v Hwalk IH Hedge].
  - by left.
  - pose proof (Hedges (u, v) (edge_in_edges_of g u v Hedge)) as [H1 H2].
    simpl in H1, H2.
    rewrite (walk_length_snoc g q u v (walk_last g a q u Hwalk)).
    destruct IH as [->|IH].
    + case_bool_decide; [left; by rewrite H2|right; done].
    + right. lia.
Qed.

Lemma certificates_pass : all_certificates_ok.
Proof. by_evaluation. Qed.

Lemma ids_are_keys (k : string) (n : PathNode.t) :
  lookup_node navigationNodes k = Some n → PathNode.id n = k.
Proof.
  intros H. apply lookup_node_elem in H.
  revert H. unfold navigationNodes, node.
  rewrite !elem_of_cons, elem_of_nil.
  intros H. repeat (destruct H as [H|H]; [by inversion H|]). done.
Qed.

Lemma linked_snoc_inv (g : Graph) (q : list string) (u v : string) :
  linked g (q ++ [v]) → last q = Some u → linked g q ∧ edge g u v.
Proof.
  induction q as [|x [|y q] IH]; intros Hl Hlast; [done| |].
  - simpl in *. inversion Hlast; subst. by destruct Hl.
  - destruct Hl as [Hxy Hl]. destruct (IH Hl Hlast) as [H1 H2].
    by repeat split.
Qed.

(** A list of linked nodes that starts at a key [a] is a walk from
    [a]. *)
Lemma linked_walk (g : Graph) (a b : string) (q : list string) :
  is_key g a → head q = Some a → last q = Some b → linked g q →
  walk g a q b.
Proof.
  intros Ha. revert b. induction q as [|v q IH] using rev_ind;
    intros b Hh Hl Hq; [done|].
  rewrite last_snoc in Hl. inversion Hl; subst v. clear Hl.
  destruct q as [|x q].
  - simpl in Hh. inversion Hh; subst. by apply walk_start.
  - destruct (last (x :: q)) as [u|] eqn:Hu.
    2: { by apply last_None in Hu. }
    destruct (linked_snoc_inv g (x :: q) u b Hq Hu) as [Hq' He].
    apply (walk_step g a (x :: q) u b); [|done].
    by apply IH.
Qed.

(** Each step is the one that the body of the loop makes of two
    consecutive nodes of the path. *)
Lemma steps_of_lookup (g : Graph) (path : list JS.value)
  (steps : list PathStep.t) :
  steps_of g path = Done steps →
  ∀ i s, steps !! i = Some s →
    ∃ x y, path !! i = Some x ∧ path !! S i = Some y
           ∧ make_step g x y = Done s.
Proof.
  revert steps. induction path as [|x [|y path] IH]; intros steps Hs.
  - by inversion Hs.
  - by inversion Hs.
  - change (steps_of g (x :: y :: path))
      with (s ← make_step g x y; ss ← steps_of g (y :: path); Done (s :: ss))
      in Hs.
    destruct (make_step g x y) as [s0| |] eqn:Hmk; [|done..].
    rewrite bind_Done in Hs.
    destruct (steps_of g (y :: path)) as [ss| |] eqn:Hss; [|done..].
    rewrite bind_Done in Hs. inversion Hs; subst steps. clear Hs.
    intros [|i] s Hi.
    + inversion Hi; subst s. by exists x, y.
    + destruct (IH ss eq_refl i s Hi) as (x' & y' & H). by exists x', y'.
Qed.

(** A certificate that passes makes the steps of [findPath_on g a b]
    the steps of a walk from [a] to [b], step by step, whose distances
    sum to no more than the length of any other walk. *)
Lemma certified_route (g : Graph) (a b : string) (c : Certificate)
  (q : list string) :
  certificate_ok g a c → tree_routes_ok g a c →
  (∀ k n, lookup_node g k = Some n → PathNode.id n = k) →
  is_key g a → is_key g b → walk g a q b →
  ∃ route steps,
    findPath_on g a b = Done steps
    ∧ walk g a route b
    ∧ S (length steps) = length route
    ∧ (∀ i s, steps !! i = Some s →
         ∃ n m,
           route !! i = Some (PathStep.from s)
           ∧ route !! S i = Some (PathStep.to s)
           ∧ lookup_node g (PathStep.from s) = Some n
           ∧ lookup_node g (PathStep.to s) = Some m
           ∧ PathStep.distance s
             = (JS.Math_round
                  (calculateDistance (PathNode.position n)
                                     (PathNode.position m) * 10)
                / 10)%float)
    ∧ (a ≠ b → steps ≠ [])
    ∧ (q ≠ route → (total_distance steps <= walk_length g q)%Z).
Proof.
  intros Hok Htree Hid Ha Hb Hwalk.
  pose proof (walk_bound g a c q b Hok Hwalk) as Hbound.
  destruct Hok as (_ & _ & Hroutes). rewrite Forall_forall in Hroutes.
  destruct (Hroutes b) as [Hpath Hsteps]; [by apply elem_of_Object_keys|].
  unfold tree_routes_ok in Htree. rewrite Forall_forall in Htree.
  destruct (Htree b Hb) as (Hhead & Hlast & Hlinked).
  set (route := tree_at (cert_tree c) b) in *.
  destruct (findPath_on g a b) as [steps| |] eqn:Hfind; [|done..].
  assert (Hof : steps_of g (JS.Str <$> route) = Done steps).
  { revert Hfind. unfold findPath_on, findPath_fuel.
    by rewrite Hpath, bind_Done. }
  assert (Hlen : S (length steps) = length route).
  { apply steps_of_pairs in Hof as [Hlen _].
    rewrite length_fmap in Hlen. rewrite Hlen.
    destruct route; [done|]. done. }
  exists route, steps. split_and!; try done.
  - by apply linked_walk.
  - intros i s Hi.
    destruct (steps_of_lookup g _ steps Hof i s Hi) as (x & y & Hx & Hy & Hmk).
    rewrite list_lookup_fmap in Hx, Hy.
    destruct (route !! i) as [u|]; [|done].
    destruct (route !! S i) as [v|]; [|done].
    simpl in Hx, Hy. inversion Hx; inversion Hy; subst x y.
    revert Hmk. unfold make_step. cbn [JS.to_key].
    destruct (lookup_node g u) as [n|] eqn:Hn; [|done].
    destruct (lookup_node g v) as [m|] eqn:Hm; [|done].
    destruct (instruction_of n m _) as [text change].
    intros [= <-]. exists n, m.
    cbn [PathStep.from PathStep.to PathStep.distance].
    by rewrite (Hid u n Hn), (Hid v m Hm).
  - intros Hne ->. simpl in Hlen.
    destruct route as [|x [|y route]]; [done| |done].
    simpl in Hhead, Hlast. congruence.
  - intros Hother. destruct Hbound as [Heq|Hbound]; [by destruct Hother|].
    by etrans.
Qed.

(** C5.  On the shipped graph, for waypoints [a] and [b] and any walk
    [q] from [a] to [b] along connections, [findPath(a, b)] returns the
    steps of a walk [route] from [a] to [b]: one step per connection of
    the walk, from the node to the next one, with the distance between
    the two rounded to one decimal, and at least one step when [a] and
    [b] differ.  Unless [q] is that very walk, the sum of the [distance]
    fields of the steps is at most the sum of the distances between
    consecutive waypoints of [q].  Both sums are exact sums of the
    binary64 values. *)
Theorem route_is_no_longer_than_another_walk (a b : string)
  (q : list string) :
  is_key navigationNodes a → is_key navigationNodes b →
  walk navigationNodes a q b →
  ∃ route steps,
    findPath a b = Done steps
    ∧ walk navigationNodes a route b
    ∧ S (length steps) = length route
    ∧ (∀ i s, steps !! i = Some s →
         ∃ n m,
           route !! i = Some (PathStep.from s)
           ∧ route !! S i = Some (PathStep.to s)
           ∧ lookup_node navigationNodes (PathStep.from s) = Some n
           ∧ lookup_node navigationNodes (PathStep.to s) = Some m
           ∧ PathStep.distance s
             = (JS.Math_round
                  (calculateDistance (PathNode.position n)
                                     (PathNode.position m) * 10)
                / 10)%float)
    ∧ (a ≠ b → steps ≠ [])
    ∧ (q ≠ route →
       (total_distance steps <= walk_length navigationNodes q)%Z).
Proof.
  intros Ha Hb Hwalk.
  pose proof certificates_pass as Hall. unfold all_certificates_ok in Hall.
  rewrite Forall_forall in Hall.
  specialize (Hall a (proj2 (elem_of_Object_keys _ a) Ha)).
  pose proof all_tree_routes_ok as Htrees.
  rewrite Forall_forall in Htrees. specialize (Htrees a Ha).
  exact (certified_route navigationNodes a b _ q Hall Htrees ids_are_keys
           Ha Hb Hwalk).
Qed.

Lemma entrance_walk_through_hall :
  walk navigationNodes "ENTRANCE" ["ENTRANCE"; "HALL1_1"; "HALL1_2"] "HALL1_2".
Proof.
  apply (walk_step _ _ ["ENTRANCE"; "HALL1_1"] "HALL1_1"); [|by_evaluation].
  apply (walk_step _ _ ["ENTRANCE"] "ENTRANCE"); [|by_evaluation].
  apply walk_start. by_evaluation.
Qed.

Lemma route_is_no_longer_than_another_walk_witness :
  ∃ route steps,
    findPath "ENTRANCE" "HALL1_2" = Done steps
    ∧ walk navigationNodes "ENTRANCE" route "HALL1_2"
    ∧ S (length steps) = length route
    ∧ (∀ i s, steps !! i = Some s →
         ∃ n m,
           route !! i = Some (PathStep.from s)
           ∧ route !! S i = Some (PathStep.to s)
           ∧ lookup_node navigationNodes (PathStep.from s) = Some n
           ∧ lookup_node navigationNodes (PathStep.to s) = Some m
           ∧ PathStep.distance s
             = (JS.Math_round
                  (calculateDistance (PathNode.position n)
                                     (PathNode.position m) * 10)
                / 10)%float)
    ∧ ("ENTRANCE" ≠ "HALL1_2" → steps ≠ [])
    ∧ (["ENTRANCE"; "HALL1_1"; "HALL1_2"] ≠ route →
       (total_distance steps
        <= walk_length navigationNodes ["ENTRANCE"; "HALL1_1"; "HALL1_2"])%Z).
Proof.
  apply (route_is_no_longer_than_another_walk "ENTRANCE" "HALL1_2").
  - by_evaluation.
  - by_evaluation.
  - exact entrance_walk_through_hall.
Defined.

(** ** The rounding of [distance] on another record *)

(** The bound is one of the shipped graph, not of the search: the
    search compares the distances as computed, and the steps carry them
    rounded to one decimal.  On [detour], run through the same body, the
    route from A to B is the direct step, of distance 3.5 after
    rounding, while the walk round by C measures less than 3.4642. *)
Lemma rounding_can_exceed_another_walk :
  ∃ s,
    findPath_on detour "A" "B" = Done [s]
    ∧ PathStep.from s = "A" ∧ PathStep.to s = "B"
    ∧ PathStep.distance s = 3.5%float
    ∧ walk detour "A" ["A"; "C"; "B"] "B"
    ∧ (walk_length detour ["A"; "C"; "B"] < total_distance [s])%Z.
Proof.
  eexists. split; [vm_compute; reflexivity|].
  split; [reflexivity|]. split; [reflexivity|]. split; [reflexivity|].
  split.
  - apply (walk_step _ _ ["A"; "C"] "C"); [|by_evaluation].
    apply (walk_step _ _ ["A"] "A"); [|by_evaluation].
    apply walk_start. by_evaluation.
  - by vm_compute.
Qed.

(** ** [getPathNodes] *)

Lemma first_seen_elem (l : list string) (x : string) :
  x ∈ first_seen l ↔ x ∈ l.
Proof.
  induction l as [|y l IH]; simpl; [done|].
  rewrite !elem_of_cons, list_elem_of_In, filter_In, <- list_elem_of_In, IH.
  rewrite negb_true_iff, String.eqb_neq.
  destruct (decide (x = y)); naive_solver.
Qed.

Lemma first_seen_NoDup (l : list string) : NoDup (first_seen l).
Proof.
  induction l as [|y l IH]; simpl; [constructor|].
  constructor.
  - rewrite list_elem_of_In, filter_In, negb_true_iff, String.eqb_neq.
    naive_solver.
  - apply NoDup_ListNoDup, List.NoDup_filter, NoDup_ListNoDup, IH.
Qed.

Lemma filter_filter {A : Type} (p q : A → bool) (l : list A) :
  List.filter p (List.filter q l) = List.filter (fun y => q y && p y) l.
Proof.
  induction l as [|x l IH]; simpl; [done|].
  destruct (q x); simpl; [destruct (p x)|]; by rewrite IH.
Qed.

(** Adding the elements of [l] one by one to the set [acc] appends the
    first occurrences of those that [acc] does not hold. *)
Lemma fold_Set_add_first_seen (l acc : list string) :
  fold_left JS.Set_add l acc
  = acc ++ List.filter (fun y => negb (JS.Set_has acc y)) (first_seen l).
Proof.
  revert acc. induction l as [|x l IH]; intros acc; cbn [fold_left first_seen].
  - simpl. by rewrite app_nil_r.
  - rewrite IH. unfold JS.Set_add. cbn [List.filter].
    destruct (JS.Set_has acc x) eqn:Hx; cbn [negb].
    + f_equal. rewrite filter_filter. apply List.filter_ext. intros y.
      destruct (String.eqb_spec x y) as [<-|_]; simpl; [by rewrite Hx|done].
    + rewrite <- app_assoc. simpl. do 2 f_equal.
      rewrite filter_filter. apply List.filter_ext. intros y.
      unfold JS.Set_has. rewrite existsb_app. simpl.
      rewrite orb_false_r, negb_orb, (String.eqb_sym y x). apply andb_comm.
Qed.

Lemma getPathNodes_fold (steps : list PathStep.t) (acc : list string) :
  fold_left
    (fun nodes step =>
       JS.Set_add (JS.Set_add nodes (PathStep.from step)) (PathStep.to step))
    steps acc
  = fold_left JS.Set_add (endpoints steps) acc.
Proof.
  revert acc. induction steps as [|s steps IH]; intros acc; simpl; [done|].
  apply IH.
Qed.

(** The position of an id in the result is fixed by the ids read before
    its first occurrence. *)
Lemma first_seen_app (l1 l2 : list string) :
  first_seen (l1 ++ l2)
  = first_seen l1
    ++ List.filter (fun y => negb (JS.Set_has l1 y)) (first_seen l2).
Proof.
  induction l1 as [|x l1 IH]; simpl.
  - symmetry. apply forallb_filter_id. by apply forallb_forall.
  - f_equal. rewrite IH, List.filter_app. f_equal.
    rewrite filter_filter. apply List.filter_ext. intros y.
    rewrite (String.eqb_sym y x). by rewrite negb_orb, andb_comm.
Qed.

(** C9.  [getPathNodes] returns the ids that occur as a [from] or a
    [to], each once, in the order of their first occurrence, and the
    empty array for the empty list. *)
Theorem getPathNodes_distinct_in_first_seen_order (steps : list PathStep.t) :
  getPathNodes steps = first_seen (endpoints steps)
  ∧ NoDup (getPathNodes steps)
  ∧ (∀ x, x ∈ getPathNodes steps
          ↔ ∃ s, s ∈ steps ∧ (x = PathStep.from s ∨ x = PathStep.to s))
  ∧ (∀ seen x rest, endpoints steps = seen ++ x :: rest → x ∉ seen →
       ∃ later, getPathNodes steps = first_seen seen ++ x :: later)
  ∧ getPathNodes [] = [].
Proof.
  assert (Heq : getPathNodes steps = first_seen (endpoints steps)).
  { unfold getPathNodes. rewrite getPathNodes_fold, fold_Set_add_first_seen.
    simpl. apply forallb_filter_id. by apply forallb_forall. }
  split; [done|]. rewrite Heq. split; [apply first_seen_NoDup|].
  split; [|split; [|done]].
  - intros x. rewrite first_seen_elem. unfold endpoints.
    rewrite list_elem_of_In, in_flat_map. split.
    + intros (s & Hs & Hx). exists s. rewrite list_elem_of_In. split; [done|].
      simpl in Hx. naive_solver.
    + intros (s & Hs & Hx). exists s. rewrite <- list_elem_of_In.
      split; [done|]. simpl. naive_solver.
  - intros seen x rest -> Hx. rewrite first_seen_app. simpl.
    apply Set_has_false in Hx. rewrite Hx. simpl. eauto.
Qed.

(** ** Order of binary64 values *)

Lemma SFcompare_antisym (s t : spec_float) :
  SFcompare t s = CompOpp <$> SFcompare s t.
Proof.
  destruct s as [[]| [] | |[] m1 e1], t as [[]| [] | |[] m2 e2];
    try reflexivity; simpl; f_equal;
    rewrite (Z.compare_antisym e2 e1);
    destruct (e2 ?= e1)%Z eqn:He; simpl; try reflexivity;
    change (Pos.compare_cont Eq m1 m2) with (m1 ?= m2)%positive;
    change (Pos.compare_cont Eq m2 m1) with (m2 ?= m1)%positive;
    rewrite (Pos.compare_antisym m1 m2); by destruct (m1 ?= m2)%positive.
Qed.

Lemma is_nan_spec (x : float) :
  is_nan x = false → Prim2SF x ≠ S754_nan.
Proof.
  unfold is_nan. rewrite FloatAxioms.eqb_spec. intros H E. rewrite E in H. discriminate H.
Qed.

Lemma SFcompare_defined (s t : spec_float) :
  s ≠ S754_nan → t ≠ S754_nan → is_Some (SFcompare s t).
Proof. destruct s as [[]| [] | |[] ? ?], t as [[]| [] | |[] ? ?]; simpl; eauto; done. Qed.

(** [c <= x] is the negation of [x < c] unless a NaN is compared. *)
Lemma leb_not_ltb (c x : float) :
  is_nan c = false → is_nan x = false → (c <=? x)%float = negb (x <? c)%float.
Proof.
  intros Hc Hx. rewrite FloatAxioms.leb_spec, FloatAxioms.ltb_spec. unfold SFleb, SFltb.
  rewrite (SFcompare_antisym (Prim2SF c) (Prim2SF x)).
  destruct (SFcompare_defined (Prim2SF c) (Prim2SF x)) as [o ->];
    [by apply is_nan_spec..|].
  by destruct o.
Qed.

Lemma SFltb_trans (s t u : spec_float) :
  SFltb s t = true → SFltb t u = true → SFltb s u = true.
Proof.
  unfold SFltb.
  destruct s as [[]| [] | |[] m1 e1], t as [[]| [] | |[] m2 e2],
           u as [[]| [] | |[] m3 e3]; simpl; try done;
    change (Pos.compare_cont Eq m1 m2) with (m1 ?= m2)%positive;
    change (Pos.compare_cont Eq m2 m3) with (m2 ?= m3)%positive;
    change (Pos.compare_cont Eq m1 m3) with (m1 ?= m3)%positive;
    destruct (Z.compare_spec e1 e2), (Z.compare_spec e2 e3); try done;
    destruct (Z.compare_spec e1 e3); try lia; try done;
    destruct (Pos.compare_spec m1 m2), (Pos.compare_spec m2 m3); try done;
    destruct (Pos.compare_spec m1 m3); simpl; try lia; try done.
Qed.

Lemma ltb_trans (x y z : float) :
  (x <? y)%float = true → (y <? z)%float = true → (x <? z)%float = true.
Proof. rewrite !FloatAxioms.ltb_spec. apply SFltb_trans. Qed.

(** ** The classifier of bearings *)

(** For every angle that is a number, the chain of tests selects one
    of the eight compass labels, the angle lies in the sector of that
    label and in no other sector, and the fallback 'forward' is not
    selected.  Seven sectors are the half-open intervals of 45 degrees
    that start at -157.5, -112.5, ..., 112.5; the eighth (west) starts
    at 157.5 and wraps round to -157.5. *)
Lemma direction_of_angle_sectors (angle : float) :
  is_nan angle = false →
  direction_of_angle angle ∈ compass
  ∧ in_sector (direction_of_angle angle) angle = true
  ∧ (∀ label, in_sector label angle = true → label = direction_of_angle angle)
  ∧ direction_of_angle angle ≠ "forward"
  ∧ Forall
      (fun p =>
         in_sector (fst p) angle =
         if String.eqb (fst p) "west"
         then ((snd p <=? angle) || (angle <? snd p + 45 - 360))%float
         else ((snd p <=? angle) && (angle <? snd p + 45))%float)
      sector_bounds.
Proof.
  intros Hnan.
  assert (Hmono : ∀ c1 c2 : float, (c1 <? c2)%float = true →
            (angle <? c1)%float = true → (angle <? c2)%float = true).
  { intros c1 c2 Hc H. by apply (ltb_trans angle c1 c2). }
  pose proof (Hmono (-157.5)%float (-112.5)%float eq_refl) as H12.
  pose proof (Hmono (-112.5)%float (-67.5)%float eq_refl) as H23.
  pose proof (Hmono (-67.5)%float (-22.5)%float eq_refl) as H34.
  pose proof (Hmono (-22.5)%float 22.5%float eq_refl) as H45.
  pose proof (Hmono 22.5%float 67.5%float eq_refl) as H56.
  pose proof (Hmono 67.5%float 112.5%float eq_refl) as H67.
  pose proof (Hmono 112.5%float 157.5%float eq_refl) as H78.
  clear Hmono.
  split; [|split; [|split; [|split]]].
  5: { unfold sector_bounds. repeat constructor. }
  all: unfold direction_of_angle, in_sector.
  all: rewrite !(leb_not_ltb _ angle) by (reflexivity || assumption).
  all: destruct (angle <? -157.5)%float, (angle <? -112.5)%float,
         (angle <? -67.5)%float, (angle <? -22.5)%float,
         (angle <? 22.5)%float, (angle <? 67.5)%float,
         (angle <? 112.5)%float, (angle <? 157.5)%float;
       try discriminate (H12 eq_refl); try discriminate (H23 eq_refl);
       try discriminate (H34 eq_refl); try discriminate (H45 eq_refl);
       try discriminate (H56 eq_refl); try discriminate (H67 eq_refl);
       try discriminate (H78 eq_refl);
       clear H12 H23 H34 H45 H56 H67 H78; cbn [negb andb orb].
  all: try by_evaluation.
  all: try reflexivity.
  all: try discriminate.
  all: intros label; label_cases label; done.
Qed.

Lemma getDirection_bearing (from to : Position) :
  getDirection from to = direction_of_angle (bearing from to).
Proof. by destruct from as [[x1 y1] z1], to as [[x2 y2] z2]. Qed.

(** Between any two nodes of the shipped graph the bearing is a number
    and the direction a compass label. *)
Lemma shipped_directions_are_compass_labels :
  Forall
    (fun p =>
       Forall
         (fun q =>
            is_nan (bearing (PathNode.position (snd p))
                            (PathNode.position (snd q))) = false
            ∧ getDirection (PathNode.position (snd p))
                           (PathNode.position (snd q)) ∈ compass)
         navigationNodes)
    navigationNodes.
Proof. by_evaluation. Qed.

(** The angles that the specification lists, and their labels. *)
Lemma direction_of_listed_angles :
  map direction_of_angle
      [-180; -135; -90; -45; 0; 0x1.6733333333333p+5; 45;
       0x1.6866666666666p+6]%float
  = ["west"; "southwest"; "south"; "southeast"; "east"; "northeast";
     "northeast"; "north"].
Proof. reflexivity. Qed.

(** NaN is the one angle that falls through every test. *)
Lemma direction_of_nan : direction_of_angle nan = "forward".
Proof. reflexivity. Qed.

(** ** Segments without horizontal displacement *)

Lemma is_finite_spec (x : float) :
  is_finite x = true →
  Prim2SF x ≠ S754_nan ∧ ∀ s, Prim2SF x ≠ S754_infinity s.
Proof.
  unfold is_finite, is_nan, is_infinity.
  rewrite !FloatAxioms.eqb_spec, abs_spec.
  change (Prim2SF infinity) with (S754_infinity false).
  destruct (Prim2SF x) as [[]| [] | |[] ? ?]; simpl; intros H;
    split; try done; discriminate H.
Qed.

(** A finite number minus itself is +0. *)
Lemma sub_diag (x : float) : is_finite x = true → (x - x)%float = 0%float.
Proof.
  intros [Hnan Hinf]%is_finite_spec. apply Prim2SF_inj.
  rewrite sub_spec. change (Prim2SF 0) with (S754_zero false).
  destruct (Prim2SF x) as [[]| s | |s m e]; try done.
  - by destruct (Hinf s).
  - unfold SF64sub, SFsub. by rewrite Z.sub_diag.
Qed.

Lemma getDirection_zero (from to : Position) :
  (to.1.1 - from.1.1)%float = 0%float →
  (to.2 - from.2)%float = 0%float →
  getDirection from to = "east".
Proof.
  destruct from as [[x1 y1] z1], to as [[x2 y2] z2]. simpl.
  intros -> ->. reflexivity.
Qed.

(** C10.  When the two ends of a segment have the same finite [x] and
    the same finite [z], [getDirection] returns 'east': both
    differences are +0, [Math.atan2(0, 0)] is 0, and 0 lies in the east
    sector. *)
Theorem vertical_segment_heads_east (from to : Position) :
  to.1.1 = from.1.1 → to.2 = from.2 →
  is_finite from.1.1 = true → is_finite from.2 = true →
  getDirection from to = "east".
Proof.
  intros Hx Hz Hfx Hfz. apply getDirection_zero.
  - rewrite Hx. by apply sub_diag.
  - rewrite Hz. by apply sub_diag.
Qed.

Lemma vertical_segment_heads_east_witness :
  getDirection (-1, 1, -1)%float (-1, 2, -1)%float = "east".
Proof.
  exact (vertical_segment_heads_east (-1, 1, -1)%float (-1, 2, -1)%float
           eq_refl eq_refl eq_refl eq_refl).
Defined.

(** The step between two nodes with the same finite [x] and [z] has
    the direction 'east'. *)
Lemma vertical_step_direction (g : Graph) (a b : JS.value)
  (n m : PathNode.t) (s : PathStep.t) :
  lookup_node g (JS.to_key a) = Some n →
  lookup_node g (JS.to_key b) = Some m →
  (PathNode.position m).1.1 = (PathNode.position n).1.1 →
  (PathNode.position m).2 = (PathNode.position n).2 →
  is_finite (PathNode.position n).1.1 = true →
  is_finite (PathNode.position n).2 = true →
  make_step g a b = Done s →
  PathStep.direction s = "east".
Proof.
  intros Hn Hm Hx Hz Hfx Hfz. unfold make_step. rewrite Hn, Hm.
  rewrite (getDirection_zero (PathNode.position n) (PathNode.position m)).
  - destruct (instruction_of n m "east") as [text change].
    by intros [= <-].
  - rewrite Hx. by apply sub_diag.
  - rewrite Hz. by apply sub_diag.
Qed.

(** The segments of the shipped graph without horizontal displacement:
    the stairs, the lift (both ways) and the door of B101. *)
Lemma vertical_steps_of_the_graph :
  map PathStep.direction <$> findPath "STAIRS1" "STAIRS2"
    = Done ["east"]
  ∧ map PathStep.direction <$> findPath "ELEVATOR1" "ELEVATOR2"
    = Done ["east"]
  ∧ map PathStep.direction <$> findPath "STAIRS2" "STAIRS1"
    = Done ["east"]
  ∧ map PathStep.direction <$> findPath "ELEVATOR2" "ELEVATOR1"
    = Done ["east"]
  ∧ map PathStep.direction <$> findPath "HALL1_1" "B101"
    = Done ["east"].
Proof. repeat split; vm_compute; reflexivity. Qed.

(** ** Rounding never yields NaN *)

Lemma iter_pos_invariant {A : Type} (P : A → Prop) (f : A → A) :
  (∀ x, P x → P (f x)) →
  ∀ (n : positive) (x : A), P x → P (SpecFloat.iter_pos f n x).
Proof.
  intros Hf. induction n as [n IH|n IH|]; intros x Hx; simpl; auto.
Qed.

Lemma shr_1_nonneg (mrs : shr_record) :
  (0 <= shr_m mrs)%Z → (0 <= shr_m (shr_1 mrs))%Z.
Proof.
  destruct mrs as [m r s]. simpl.
  destruct m as [|[p|p|]|[p|p|]]; simpl; lia.
Qed.

Lemma shr_fexp_nonneg (m e : Z) (l : location) :
  (0 <= m)%Z → (0 <= shr_m (fst (shr_fexp prec emax m e l)))%Z.
Proof.
  intros Hm. unfold shr_fexp, shr.
  assert (H0 : (0 <= shr_m (shr_record_of_loc m l))%Z)
    by (by destruct l as [|[]]).
  destruct (_ - e)%Z as [|p|p]; simpl; try done.
  apply (iter_pos_invariant (fun mrs => (0 <= shr_m mrs)%Z));
    [apply shr_1_nonneg|exact H0].
Qed.

Lemma binary_round_aux_not_nan (sx : bool) (mx ex : Z) (lx : location) :
  (0 <= mx)%Z → binary_round_aux prec emax sx mx ex lx ≠ S754_nan.
Proof.
  intros Hm. unfold binary_round_aux.
  pose proof (shr_fexp_nonneg mx ex lx Hm) as H1.
  destruct (shr_fexp prec emax mx ex lx) as [mrs' e']. simpl in H1.
  assert (H2 : (0 <= round_nearest_even (shr_m mrs')
                       (loc_of_shr_record mrs'))%Z).
  { unfold round_nearest_even.
    destruct (loc_of_shr_record mrs') as [|[]]; try lia.
    destruct (Z.even _); lia. }
  pose proof (shr_fexp_nonneg _ e' loc_Exact H2) as H3.
  destruct (shr_fexp prec emax _ e' loc_Exact) as [mrs'' e'']. simpl in H3.
  destruct (shr_m mrs'') as [|m|m]; [done| |lia].
  by destruct (_ <=? _)%Z.
Qed.

Lemma SFdiv_core_binary_nonneg (m1 m2 : positive) (e1 e2 : Z) :
  (0 <= fst (fst (SFdiv_core_binary prec emax (Z.pos m1) e1 (Z.pos m2) e2)))%Z.
Proof.
  unfold SFdiv_core_binary.
  set (s := (_ - _ - _)%Z).
  set (m' := match s with Z0 => Z.pos m1 | Z.pos _ => Z.shiftl (Z.pos m1) s
             | Z.neg _ => 0%Z end).
  assert (Hm' : (0 <= m')%Z).
  { unfold m'. destruct s; try lia. apply Z.shiftl_nonneg. lia. }
  pose proof (Z.div_pos m' (Z.pos m2) Hm' ltac:(lia)) as Hq.
  unfold Z.div in Hq.
  by destruct (Z.div_eucl m' (Z.pos m2)) as [q r].
Qed.

(** A number times a finite non-zero constant, and a number divided by
    one, is a number. *)
Lemma SFmul_constant_not_nan (x : spec_float) (s : bool) (m : positive)
  (e : Z) :
  x ≠ S754_nan → SFmul prec emax x (S754_finite s m e) ≠ S754_nan.
Proof.
  destruct x as [sx|sx| |sx mx ex]; try done. intros _. cbn [SFmul].
  apply binary_round_aux_not_nan. lia.
Qed.

Lemma SFdiv_constant_not_nan (x : spec_float) (s : bool) (m : positive)
  (e : Z) :
  x ≠ S754_nan → SFdiv prec emax x (S754_finite s m e) ≠ S754_nan.
Proof.
  destruct x as [sx|sx| |sx mx ex]; try done. intros _. cbn [SFdiv].
  pose proof (SFdiv_core_binary_nonneg mx m ex e) as H.
  destruct (SFdiv_core_binary _ _ _ _ _ _) as [[mz ez] lz]. simpl in H.
  by apply binary_round_aux_not_nan.
Qed.

Lemma SFeqb_refl (s : spec_float) : s ≠ S754_nan → SFeqb s s = true.
Proof.
  destruct s as [[]|[]| |[] m e]; try done; intros _; unfold SFeqb; simpl;
    rewrite Z.compare_refl;
    change (Pos.compare_cont Eq m m) with (m ?= m)%positive;
    by rewrite Pos.compare_refl.
Qed.

Lemma is_nan_iff (x : float) : is_nan x = true ↔ Prim2SF x = S754_nan.
Proof.
  unfold is_nan. rewrite FloatAxioms.eqb_spec. split; [|by intros ->].
  intros H. destruct (Prim2SF x) as [s|s| |s m e]; try done;
    by rewrite SFeqb_refl in H.
Qed.

Lemma is_nan_false_iff (x : float) : is_nan x = false ↔ Prim2SF x ≠ S754_nan.
Proof.
  rewrite <- is_nan_iff. by destruct (is_nan x).
Qed.

(** The conversion to degrees keeps a number a number, and NaN NaN. *)
Lemma degrees_is_nan (r : float) :
  is_nan (r * 180 / JS.Math_PI)%float = is_nan r.
Proof.
  assert (H180 : ∃ s m e, Prim2SF 180 = S754_finite s m e)
    by (eexists _, _, _; vm_compute; reflexivity).
  assert (Hpi : ∃ s m e, Prim2SF JS.Math_PI = S754_finite s m e)
    by (eexists _, _, _; vm_compute; reflexivity).
  destruct H180 as (s1 & m1 & e1 & H180), Hpi as (s2 & m2 & e2 & Hpi).
  destruct (is_nan r) eqn:E.
  - apply is_nan_iff in E. apply is_nan_iff.
    by rewrite FloatAxioms.div_spec, FloatAxioms.mul_spec, E.
  - apply is_nan_false_iff in E. apply is_nan_false_iff.
    rewrite FloatAxioms.div_spec, FloatAxioms.mul_spec, H180, Hpi.
    by apply SFdiv_constant_not_nan, SFmul_constant_not_nan.
Qed.

(** The difference of two finite numbers is a number. *)
Lemma sub_finite_is_a_number (x y : float) :
  is_finite x = true → is_finite y = true → is_nan (x - y)%float = false.
Proof.
  intros [Hx Hxi]%is_finite_spec [Hy Hyi]%is_finite_spec.
  apply is_nan_false_iff. rewrite FloatAxioms.sub_spec.
  destruct (Prim2SF x) as [sx|sx| |sx mx ex]; try done;
    [|by destruct (Hxi sx)|];
    (destruct (Prim2SF y) as [sy|sy| |sy my ey]; try done;
     [|by destruct (Hyi sy)..]).
  - by destruct sx, sy.
  - cbn [SF64sub SFsub].
    destruct (_ - _)%Z as [|p|p]; cbn [binary_normalize]; [done| |];
      unfold binary_round; destruct (shl_align _ _ _) as [mz ez];
      apply binary_round_aux_not_nan; lia.
Qed.

Lemma getDirection_with_bearing (atan2 : float → float → float)
  (from to : Position) :
  getDirection_with atan2 from to
  = direction_of_angle (bearing_with atan2 from to).
Proof. by destruct from as [[x1 y1] z1], to as [[x2 y2] z2]. Qed.

Lemma getDirection_instance (from to : Position) :
  getDirection from to = getDirection_with JS.Math_atan2 from to.
Proof. by destruct from as [[x1 y1] z1], to as [[x2 y2] z2]. Qed.

Lemma Math_atan2_of_nan (y x : float) :
  is_nan y || is_nan x = true → JS.Math_atan2 y x = nan.
Proof. unfold JS.Math_atan2. by intros ->. Qed.

(** C8.  Whatever the engine's [Math.atan2] returns, [getDirection]
    classifies the angle that it computes: when the angle is a number it
    returns one of the eight compass labels, the angle lies in the sector
    of that label and in no other, and the fallback is not taken; when
    the angle is NaN it returns 'forward'.  Seven sectors are the
    half-open intervals of 45 degrees that start at -157.5, -112.5, ...,
    112.5; the eighth (west) starts at 157.5 and wraps round to -157.5.
    With an [atan2] that is NaN exactly when an argument is, as ECMA-262
    has it, 'forward' is returned exactly when [dx] or [dz] is NaN, and
    never between two points of finite coordinates.  [getDirection] of
    this file is the instance with [JS.Math_atan2], and returns
    'forward' when [dx] or [dz] is NaN. *)
Theorem getDirection_sectors_partition (atan2 : float → float → float)
  (from to : Position) :
  (is_nan (bearing_with atan2 from to) = false →
   getDirection_with atan2 from to ∈ compass
   ∧ in_sector (getDirection_with atan2 from to)
               (bearing_with atan2 from to) = true
   ∧ (∀ label, in_sector label (bearing_with atan2 from to) = true →
        label = getDirection_with atan2 from to)
   ∧ Forall
       (fun p =>
          in_sector (fst p) (bearing_with atan2 from to) =
          if String.eqb (fst p) "west"
          then ((snd p <=? bearing_with atan2 from to)
                || (bearing_with atan2 from to <? snd p + 45 - 360))%float
          else ((snd p <=? bearing_with atan2 from to)
                && (bearing_with atan2 from to <? snd p + 45))%float)
       sector_bounds)
  ∧ (getDirection_with atan2 from to = "forward"
     ↔ is_nan (bearing_with atan2 from to) = true)
  ∧ (nan_only_of_nan atan2 →
     (getDirection_with atan2 from to = "forward"
      ↔ is_nan (to.1.1 - from.1.1)%float || is_nan (to.2 - from.2)%float
        = true)
     ∧ (is_finite from.1.1 = true → is_finite to.1.1 = true →
        is_finite from.2 = true → is_finite to.2 = true →
        getDirection_with atan2 from to ∈ compass))
  ∧ getDirection from to = getDirection_with JS.Math_atan2 from to
  ∧ (is_nan (to.1.1 - from.1.1)%float || is_nan (to.2 - from.2)%float = true →
     getDirection from to = "forward").
Proof.
  rewrite getDirection_with_bearing.
  set (angle := bearing_with atan2 from to).
  assert (Hfwd : direction_of_angle angle = "forward" ↔ is_nan angle = true).
  { destruct (is_nan angle) eqn:E.
    - apply is_nan_iff in E. split; [done|intros _].
      unfold direction_of_angle.
      rewrite !FloatAxioms.leb_spec, !FloatAxioms.ltb_spec, E. reflexivity.
    - split; [|done]. intros H.
      by destruct (direction_of_angle_sectors angle E) as (_ & _ & _ & ? & _). }
  assert (Hcontract : nan_only_of_nan atan2 →
            is_nan angle = is_nan (to.1.1 - from.1.1)%float
                           || is_nan (to.2 - from.2)%float).
  { intros Hc. unfold angle, bearing_with.
    rewrite degrees_is_nan, Hc. apply orb_comm. }
  split_and!.
  - intros E.
    destruct (direction_of_angle_sectors angle E) as (H1 & H2 & H3 & _ & H5).
    done.
  - done.
  - intros Hc. split.
    + by rewrite Hfwd, (Hcontract Hc).
    + intros Hx1 Hx2 Hz1 Hz2.
      apply (direction_of_angle_sectors angle).
      rewrite (Hcontract Hc).
      by rewrite !sub_finite_is_a_number.
  - apply getDirection_instance.
  - intros H. destruct from as [[x1 y1] z1], to as [[x2 y2] z2].
    unfold getDirection. simpl in H.
    rewrite Math_atan2_of_nan by (by rewrite orb_comm). reflexivity.
Qed.

(** Between two points that share an infinite coordinate the
    difference is NaN, and so is the angle. *)
Lemma forward_is_returned :
  getDirection (infinity, 0, 0)%float (infinity, 0, 1)%float = "forward"
  ∧ is_nan (infinity - infinity)%float = true
  ∧ "forward" ∉ compass.
Proof.
  split; [reflexivity|]. split; [reflexivity|].
  unfold compass. set_solver.
Qed.

Lemma getDirection_sectors_partition_witness :
  is_nan (bearing_with JS.Math_atan2 (0, 1, -4)%float (2, 1, 0)%float) = false
  ∧ getDirection (0, 1, -4)%float (2, 1, 0)%float ∈ compass
  ∧ getDirection (0, 1, -4)%float (2, 1, 0)%float = "northeast".
Proof.
  assert (H : is_nan (bearing_with JS.Math_atan2 (0, 1, -4)%float
                        (2, 1, 0)%float) = false) by reflexivity.
  split; [exact H|]. split; [|reflexivity].
  destruct (getDirection_sectors_partition JS.Math_atan2
              (0, 1, -4)%float (2, 1, 0)%float)
    as (Hnum & _ & _ & Heq & _).
  rewrite Heq. exact (proj1 (Hnum H)).
Defined.
